(** * Gridscape: the spatial idea-graph engine

    A shallow embedding of the engine of [src/App.tsx] (placement, node
    store, generation chain, viewport), of [screenToWorld] from the
    QuadrantGrid component and of [getSuggestions] from the provider
    service, together with the properties stated for them.

    Conventions.
    - JavaScript numbers that hold coordinates, sizes and zoom factors are
      modelled as exact rationals [Q]; the comparisons [<=], [>=], [<], [>]
      and [===] on them are the numeric ones ([Qle_bool], [Qeq_bool]).
      Rounding, infinities and NaN of IEEE doubles are outside the model.
    - Node ids and version indices are integers in the source (a counter,
      array positions); they are modelled as [Z].
    - An optional field ([asciiArt?], [bridgeText?], [terms?]) or a nullable
      one ([error]) is an [option].
    - A React state cell is a field of the engine state; a functional update
      [setX(prev => f(prev))] is the function [f] applied to that field. *)

From Stdlib Require Import QArith Qabs Qminmax Permutation Sorted Lia.
From Stdlib Require Import DecimalString Lqa.
From stdpp Require Import base list strings numbers.
Close Scope Q_scope.
Local Open Scope Z_scope.

(** ** Data model ([types.ts]) *)

Record Point := mkPoint { px : Q; py : Q }.

Record Rect := mkRect { x : Q; y : Q; width : Q; height : Q }.

Record IdeaVersion := mkVersion {
  v_text : string;
  v_asciiArt : option string;
  v_bridgeText : option string;
  v_terms : option (list string)
}.

(** [Idea extends Rect]: the four rectangle fields are kept together in
    [rect], and an idea is used as a rectangle through the coercion. *)
Record Idea := mkIdea {
  id : Z;
  rect :> Rect;
  text : string;
  asciiArt : option string;
  bridgeText : option string;
  terms : list string;
  versions : list IdeaVersion;
  currentVersionIndex : Z;
  isLoading : bool;
  isAsciiLoading : bool;
  error : option string;
  isCollapsed : bool
}.

Record Suggestion := mkSuggestion {
  sugg_id : string;
  sourceId : Z;
  sugg_text : string;
  sugg_rect :> Rect
}.

(** ** Geometry kernel *)

Module Geometry.

Definition GRID_GAP : Q := 24%Q.

(** The callback of [ideas.some] in [isOverlap]. *)
Definition overlaps (newRect : Rect) (gap : Q) (idea : Rect) : bool :=
  negb (Qle_bool (x newRect + width newRect + gap) (x idea)
        || Qle_bool (x idea + width idea + gap) (x newRect)
        || Qle_bool (y newRect + height newRect + gap) (y idea)
        || Qle_bool (y idea + height idea + gap) (y newRect)).

(** [isOverlap(newRect, gap = GRID_GAP)] over the current node list. *)
Definition isOverlap_gap (ideas : list Idea) (newRect : Rect) (gap : Q) : bool :=
  existsb (fun idea : Idea => overlaps newRect gap idea) ideas.

Definition isOverlap (ideas : list Idea) (newRect : Rect) : bool :=
  isOverlap_gap ideas newRect GRID_GAP.

(** A [for (let i = lo; i <= hi; i++)] loop whose body may [return]: the
    first iteration that returns decides, [None] when the loop runs out. *)
Fixpoint for_from {A} (n : nat) (i : Z) (body : Z -> option A) : option A :=
  match n with
  | O => None
  | S n' => match body i with
            | Some v => Some v
            | None => for_from n' (i + 1) body
            end
  end.

Definition for_range {A} (lo hi : Z) (body : Z -> option A) : option A :=
  for_from (Z.to_nat (hi - lo + 1)) lo body.

Definition step : Z := 20.
Definition maxRings : Z := 40.

(** [{ ...rect, x: rect.x + x * step, y: rect.y + y * step }] *)
Definition testRect (r : Rect) (dx dy : Z) : Rect :=
  mkRect (x r + inject_Z dx * inject_Z step)
         (y r + inject_Z dy * inject_Z step)
         (width r) (height r).

Definition findValidSpot (ideas : list Idea) (r0 : Rect) : Rect :=
  if negb (isOverlap ideas r0) then r0
  else
    match
      for_range 1 maxRings (fun r =>
        for_range (- r) r (fun dx =>
          for_range (- r) r (fun dy =>
            if negb (Z.abs dx =? r) && negb (Z.abs dy =? r) then None
            else if negb (isOverlap ideas (testRect r0 dx dy))
                 then Some (testRect r0 dx dy)
                 else None)))
    with
    | Some t => t
    | None => r0
    end.

(** The scan order in words: rings [r = 1..40]; inside a ring [dx] from
    [-r] to [r], for each [dx] the [dy] from [-r] to [r]; only the offsets
    on the ring's perimeter. *)
Definition on_perimeter (r : Z) (o : Z * Z) : bool :=
  (Z.abs o.1 =? r) || (Z.abs o.2 =? r).

Definition ring (r : Z) : list (Z * Z) :=
  List.filter (on_perimeter r)
    (dx ← seqZ (- r) (2 * r + 1); dy ← seqZ (- r) (2 * r + 1); [(dx, dy)]).

Definition scan : list (Z * Z) :=
  r ← seqZ 1 maxRings; ring r.

Definition clears (ideas : list Idea) (r0 : Rect) (o : Z * Z) : bool :=
  negb (isOverlap ideas (testRect r0 o.1 o.2)).

(** The first element of a list on which [f] answers. *)
Fixpoint first_some {A B} (f : A -> option B) (l : list A) : option B :=
  match l with
  | [] => None
  | a :: l' => match f a with
               | Some b => Some b
               | None => first_some f l'
               end
  end.

End Geometry.

(** ** Node store: the updaters passed to [setIdeas] *)

Module Store.

(** [arr[i]] for an integer [i]: [undefined] (here [None]) outside
    [0 <= i < arr.length], in particular at [-1]. *)
Definition js_index {A} (arr : list A) (i : Z) : option A :=
  if 0 <=? i then arr !! Z.to_nat i else None.

(** [if (arr[i]) arr[i] = v] on a copy: the write happens only at an index
    that holds an element. *)
Definition js_replace {A} (arr : list A) (i : Z) (f : A -> A) : list A :=
  match js_index arr i with
  | Some v => <[Z.to_nat i := f v]> arr
  | None => arr
  end.

(** [GeminiMainContentResponse] *)
Record MainContent := mkMain {
  mc_text : string;
  bridge : option string;
  mc_terms : list string
}.

(** [data.bridge || undefined]: [null] and the empty string both give
    [undefined]. *)
Definition or_undefined (s : option string) : option string :=
  match s with
  | Some EmptyString => None
  | other => other
  end.

(** [!!i.text] *)
Definition truthy (s : string) : bool :=
  match s with EmptyString => false | _ => true end.

Definition map_id (target : Z) (f : Idea -> Idea) (ideas : list Idea) : list Idea :=
  (fun i => if id i =? target then f i else i) <$> ideas.

(** [{ ...i, isLoading: true, isAsciiLoading: true, error: null }] *)
Definition markLoading (i : Idea) : Idea :=
  mkIdea (id i) (rect i) (text i) (asciiArt i) (bridgeText i) (terms i)
         (versions i) (currentVersionIndex i) true true None (isCollapsed i).

Definition newVersion (data : MainContent) : IdeaVersion :=
  mkVersion (mc_text data) None (or_undefined (bridge data)) (Some (mc_terms data)).

(** The success update of the main-content stage. *)
Definition appendVersion (data : MainContent) (i : Idea) : Idea :=
  let updatedVersions := versions i ++ [newVersion data] in
  mkIdea (id i) (rect i) (mc_text data) (asciiArt i)
         (or_undefined (bridge data)) (mc_terms data)
         updatedVersions (Z.of_nat (length updatedVersions) - 1)
         false (isAsciiLoading i) (error i) (isCollapsed i).

Definition with_art (ascii : string) (v : IdeaVersion) : IdeaVersion :=
  mkVersion (v_text v) (Some ascii) (v_bridgeText v) (v_terms v).

(** The success update of the art stage. *)
Definition attachArt (ascii : string) (i : Idea) : Idea :=
  let updatedVersions := js_replace (versions i) (currentVersionIndex i) (with_art ascii) in
  mkIdea (id i) (rect i) (text i) (Some ascii) (bridgeText i) (terms i)
         updatedVersions (currentVersionIndex i)
         (isLoading i) false (error i) (isCollapsed i).

(** The update of the [catch] block. *)
Definition setError (errorMessage : string) (i : Idea) : Idea :=
  mkIdea (id i) (rect i) (text i) (asciiArt i) (bridgeText i) (terms i)
         (versions i) (currentVersionIndex i) false false (Some errorMessage)
         (isCollapsed i).

(** [handleSwitchVersion]: the callback of [prev.map]. *)
Definition switchVersion (target : Z) (index : Z) (i : Idea) : Idea :=
  if id i =? target then
    match js_index (versions i) index with
    | Some v =>
        mkIdea (id i) (rect i) (v_text v) (v_asciiArt v) (v_bridgeText v)
               (default [] (v_terms v))
               (versions i) index
               (isLoading i) (isAsciiLoading i) (error i) (isCollapsed i)
    | None => i
    end
  else i.

Definition handleSwitchVersion (target index : Z) (ideas : list Idea) : list Idea :=
  switchVersion target index <$> ideas.

(** A temporary node as every creation path builds it. *)
Definition tempIdea (newIdeaId : Z) (r : Rect) : Idea :=
  mkIdea newIdeaId r EmptyString None None [] [] (-1) true true None false.

(** Same node, at least as many versions. *)
Definition grows (i j : Idea) : Prop :=
  id j = id i /\ (length (versions i) <= length (versions j))%nat.

(** *** Prompt history *)

(** [Array.prototype.sort] with the comparator [a.id - b.id]: a stable
    sort by id, written as insertion from the right. *)
Fixpoint insert_by_id (a : Idea) (l : list Idea) : list Idea :=
  match l with
  | [] => [a]
  | b :: l' => if id a <=? id b then a :: b :: l' else b :: insert_by_id a l'
  end.

Definition sort_by_id (l : list Idea) : list Idea :=
  foldr insert_by_id [] l.

(** The history of [generateContentForIdea]. *)
Definition history (target : Z) (currentIdeas : list Idea) : list string :=
  text <$> sort_by_id
    (List.filter (fun i => negb (id i =? target) && truthy (text i)) currentIdeas).

(** [currentHistory] of the concept paths (term, suggestion, typed). *)
Definition currentHistory (ideas : list Idea) : list string :=
  text <$> sort_by_id (List.filter (fun i => truthy (text i)) ideas).

(** *** Bring to front *)

Definition TOOLBAR_HEIGHT : Q := 60%Q.

Definition toolbarRect (activeNode : Rect) : Rect :=
  mkRect (x activeNode - 20) (y activeNode - TOOLBAR_HEIGHT - 10)
         (width activeNode + 40) (TOOLBAR_HEIGHT + 10).

Definition Qlt_bool (a b : Q) : bool := negb (Qle_bool b a).

Definition isOverlapping (node tb : Rect) : bool :=
  negb (Qlt_bool (x node + width node) (x tb)
        || Qlt_bool (x tb + width tb) (x node)
        || Qlt_bool (y node + height node) (y tb)
        || Qlt_bool (y tb + height tb) (y node)).

Definition dyCenter (node tb : Rect) : Q :=
  (y node + height node / 2) - (y tb + height tb / 2).

Definition dxCenter (node tb : Rect) : Q :=
  (x node + width node / 2) - (x tb + width tb / 2).

Definition pushes_vertically (node tb : Rect) : bool :=
  Qlt_bool (Qabs (dxCenter node tb)) (Qabs (dyCenter node tb))
  || Qlt_bool (y tb) (y node + height node).

Definition with_rect (r : Rect) (i : Idea) : Idea :=
  mkIdea (id i) r (text i) (asciiArt i) (bridgeText i) (terms i)
         (versions i) (currentVersionIndex i)
         (isLoading i) (isAsciiLoading i) (error i) (isCollapsed i).

(** The callback of [prev.map] in [handleBringToFront]. *)
Definition nudge (target : Z) (tb : Rect) (node : Idea) : Idea :=
  if id node =? target then node
  else if isOverlapping node tb then
    if pushes_vertically node tb then
      let pushY := ((y tb - (y node + height node)) - 10)%Q in
      with_rect (mkRect (x node) (y node + pushY) (width node) (height node)) node
    else
      let pushX :=
        (if Qlt_bool 0 (dxCenter node tb)
         then (x tb + width tb - x node) + 15
         else (x tb - (x node + width node)) - 15)%Q in
      with_rect (mkRect (x node + pushX) (y node) (width node) (height node)) node
  else node.

Definition bringToFront (target : Z) (prev : list Idea) : list Idea :=
  match List.find (fun n => id n =? target) prev with
  | None => prev
  | Some activeNode => nudge target (toolbarRect activeNode) <$> prev
  end.

End Store.

(** ** Content provider, as the engine sees it *)

Module Provider.

(** What an awaited provider call does: it resolves with a value or it
    rejects with an error that carries a message. *)
Inductive outcome (A : Type) :=
  | Resolved (a : A)
  | Rejected (message : string).
Arguments Resolved {A} a.
Arguments Rejected {A} message.

Definition fallbackSuggestions : list string :=
  ["Explore the implications..."; "Trace the origins...";
   "Uncover the hidden patterns..."]%string.

(** [getSuggestions]: [response] is what the [try] block computes up to
    [data.suggestions] (the model call, [JSON.parse], the field access);
    any exception in it reaches the [catch]. *)
Definition getSuggestions (response : outcome (list string)) : list string :=
  match response with
  | Resolved suggestions => take 3 suggestions
  | Rejected _ => fallbackSuggestions
  end.

End Provider.

(** ** Engine state and the generation chain *)

Module Engine.
Import Geometry Store Provider.

Record State := mkState {
  context : string;
  ideas : list Idea;
  activeIdeaId : option Z;
  activeSuggestions : list Suggestion;
  showInitialInput : bool;
  totalCharsGenerated : Z;
  sessionStartTime : option Z;
  ideaIdCounter : Z
}.

Definition initial : State :=
  mkState EmptyString [] None [] true 0 None 0.

Definition setIdeas (f : list Idea -> list Idea) (e : State) : State :=
  mkState (context e) (f (ideas e)) (activeIdeaId e) (activeSuggestions e)
          (showInitialInput e) (totalCharsGenerated e) (sessionStartTime e)
          (ideaIdCounter e).

Definition setActiveSuggestions (f : list Suggestion -> list Suggestion)
    (e : State) : State :=
  mkState (context e) (ideas e) (activeIdeaId e) (f (activeSuggestions e))
          (showInitialInput e) (totalCharsGenerated e) (sessionStartTime e)
          (ideaIdCounter e).

Definition setActiveIdeaId (a : option Z) (e : State) : State :=
  mkState (context e) (ideas e) a (activeSuggestions e)
          (showInitialInput e) (totalCharsGenerated e) (sessionStartTime e)
          (ideaIdCounter e).

Definition setTotalCharsGenerated (f : Z -> Z) (e : State) : State :=
  mkState (context e) (ideas e) (activeIdeaId e) (activeSuggestions e)
          (showInitialInput e) (f (totalCharsGenerated e)) (sessionStartTime e)
          (ideaIdCounter e).

(** [ideaIdCounter.current++] *)
Definition nextId (e : State) : Z * State :=
  (ideaIdCounter e,
   mkState (context e) (ideas e) (activeIdeaId e) (activeSuggestions e)
           (showInitialInput e) (totalCharsGenerated e) (sessionStartTime e)
           (ideaIdCounter e + 1)).

(** The main-content request a handler issues: the node it is for, the
    focus string, the rectangle and the prompt history. *)
Record Request := mkRequest {
  rq_node : Z;
  rq_focus : string;
  rq_rect : Rect;
  rq_history : list string
}.

(** [context || 'Ideas'] *)
Definition context_or_default (e : State) : string :=
  if truthy (context e) then context e else "Ideas"%string.

(** [generateContentForIdea] up to its first provider call. *)
Definition generateContentForIdea (target : Z) (r : Rect) (currentContext : string)
    (e : State) : State * Request :=
  let h := history target (ideas e) in
  let e1 := setIdeas (map_id target markLoading) e in
  let e2 := setActiveSuggestions (fun _ => []) e1 in
  (e2, mkRequest target currentContext r h).

(** *** Continuations of the chain, one per awaited call *)

Definition show_Z (n : Z) : string := NilZero.string_of_int (Z.to_int n).

Definition SUGG_HEIGHT : Q := 32%Q.
Definition SUGG_GAP : Q := 12%Q.

Definition materialize (target : Z) (r : Rect) (suggestedPaths : list string)
    : list Suggestion :=
  let totalHeight := (SUGG_HEIGHT * 3 + SUGG_GAP * 2)%Q in
  let startY := (y r + height r / 2 - totalHeight / 2)%Q in
  imap (fun idx t =>
          mkSuggestion
            ("sugg-" +:+ show_Z target +:+ "-" +:+ show_Z (Z.of_nat idx))
            target t
            (mkRect (x r + width r + 100)
                    (startY + inject_Z (Z.of_nat idx) * (SUGG_HEIGHT + SUGG_GAP))
                    0 SUGG_HEIGHT))
       suggestedPaths.

(** After [await getQuadrantMainContent]. *)
Definition mainArrived (target : Z) (data : MainContent) (e : State) : State :=
  let e1 := setTotalCharsGenerated
              (fun prev => prev + Z.of_nat (String.length (mc_text data))) e in
  setIdeas (map_id target (appendVersion data)) e1.

(** After [await getSuggestions]. *)
Definition suggestionsArrived (target : Z) (r : Rect)
    (suggestedPaths : list string) (e : State) : State :=
  if (0 <? length suggestedPaths)%nat
  then setActiveSuggestions (fun _ => materialize target r suggestedPaths) e
  else e.

(** After [await getQuadrantAsciiArt]. *)
Definition artArrived (target : Z) (ascii : string) (e : State) : State :=
  setIdeas (map_id target (attachArt ascii)) e.

(** [(err as Error).message || fallback] *)
Definition errorMessage (message fallback : string) : string :=
  if truthy message then message else fallback.

(** The [catch] block. *)
Definition failed (target : Z) (message : string) (e : State) : State :=
  setIdeas (map_id target (setError message)) e.

(** The chain after the request was issued, when nothing else happens in
    between: main content, then suggestions, then art; a rejected call
    jumps to the [catch] block. *)
Definition chain (target : Z) (r : Rect) (fallback : string)
    (main : outcome MainContent) (sugg : outcome (list string))
    (art : outcome string) (e : State) : State :=
  match main with
  | Rejected m => failed target (errorMessage m fallback) e
  | Resolved data =>
      let e1 := mainArrived target data e in
      let e2 := suggestionsArrived target r (getSuggestions sugg) e1 in
      match art with
      | Resolved ascii => artArrived target ascii e2
      | Rejected m => failed target (errorMessage m fallback) e2
      end
  end.

(** *** Handlers *)

Definition handleRectSelect (r : Rect) (e : State) : State * option Request :=
  let snappedRect := findValidSpot (ideas e) r in
  let '(newIdeaId, e1) := nextId e in
  let e2 := setIdeas (fun prev => prev ++ [tempIdea newIdeaId snappedRect]) e1 in
  let '(e3, rq) := generateContentForIdea newIdeaId snappedRect (context_or_default e) e2 in
  (e3, Some rq).

(** [startTopic]; [now] is [Date.now()], [centerRect] the rectangle in the
    middle of the window. *)
Definition startTopic (topic : string) (centerRect : Rect) (now : Z) (e : State)
    : State * option Request :=
  let e0 := mkState topic (ideas e) (activeIdeaId e) (activeSuggestions e)
                    false (totalCharsGenerated e) (Some now) (ideaIdCounter e) in
  let '(newIdeaId, e1) := nextId e0 in
  let e2 := setIdeas (fun _ => [tempIdea newIdeaId centerRect]) e1 in
  let '(e3, rq) := generateContentForIdea newIdeaId centerRect topic e2 in
  (e3, Some rq).

(** The part shared by the three concept paths after [rawRect] is known:
    snap, insert, and derive [currentHistory] from the node list the
    handler closed over. *)
Definition placeConcept (name : string) (rawRect : Rect) (activate : bool)
    (e : State) : State * option Request :=
  let '(newIdeaId, e1) := nextId e in
  let snappedRect := findValidSpot (ideas e) rawRect in
  let e2 := setIdeas (fun prev => prev ++ [tempIdea newIdeaId snappedRect]) e1 in
  let e3 := if activate then setActiveIdeaId (Some newIdeaId) e2 else e2 in
  (e3, Some (mkRequest newIdeaId name snappedRect (currentHistory (ideas e)))).

(** [handleExploreTerm]; [rawRect] is drawn at random next to the source. *)
Definition handleExploreTerm (term : string) (rawRect : Rect) (e : State)
    : State * option Request :=
  placeConcept term rawRect true e.

(** [handleSuggestionClick] *)
Definition handleSuggestionClick (s : Suggestion) (rawRect : Rect) (e : State)
    : State * option Request :=
  match List.find (fun i => id i =? sourceId s) (ideas e) with
  | None => (e, None)
  | Some _ =>
      placeConcept (sugg_text s) rawRect true
                   (setActiveSuggestions (fun _ => []) e)
  end.

(** [handleSubmitNewConcept]; [title] is the trimmed input. *)
Definition handleSubmitNewConcept (title : string) (rawRect : Rect) (e : State)
    : State * option Request :=
  if truthy title then placeConcept title rawRect false e else (e, None).

Definition handleRegenerate (target : Z) (e : State) : State * option Request :=
  match List.find (fun i => id i =? target) (ideas e) with
  | Some idea =>
      let '(e1, rq) := generateContentForIdea target idea (context_or_default e) e in
      (e1, Some rq)
  | None => (e, None)
  end.

Definition handleRemoveIdea (idToRemove : Z) (e : State) : State :=
  let remaining := List.filter (fun idea => negb (id idea =? idToRemove)) (ideas e) in
  let emptied := (length remaining =? 0)%nat in
  mkState (context e) remaining
          (match activeIdeaId e with
           | Some a => if a =? idToRemove then None else Some a
           | None => None
           end)
          (List.filter (fun s => negb (sourceId s =? idToRemove)) (activeSuggestions e))
          (if emptied then true else showInitialInput e)
          (if emptied then 0 else totalCharsGenerated e)
          (if emptied then None else sessionStartTime e)
          (ideaIdCounter e).

Definition handleBringToFront (target : Z) (e : State) : State :=
  setIdeas (bringToFront target) (setActiveIdeaId (Some target) e).

(** *** Events: user actions and arriving provider results *)

Inductive Event :=
  | RectSelect (r : Rect)
  | StartTopic (topic : string) (centerRect : Rect) (now : Z)
  | ExploreTerm (term : string) (rawRect : Rect)
  | SuggestionClick (s : Suggestion) (rawRect : Rect)
  | SubmitNewConcept (title : string) (rawRect : Rect)
  | Regenerate (target : Z)
  | SwitchVersion (target index : Z)
  | RemoveIdea (target : Z)
  | BringToFront (target : Z)
  | MainArrived (target : Z) (data : MainContent)
  | SuggestionsArrived (target : Z) (r : Rect) (suggestedPaths : list string)
  | ArtArrived (target : Z) (ascii : string)
  | Failed (target : Z) (message : string).

(** The state after an event and, for a creation or regeneration, the
    request it issues. *)
Definition handle (ev : Event) (e : State) : State * option Request :=
  match ev with
  | RectSelect r => handleRectSelect r e
  | StartTopic topic c now => startTopic topic c now e
  | ExploreTerm term raw => handleExploreTerm term raw e
  | SuggestionClick s raw => handleSuggestionClick s raw e
  | SubmitNewConcept title raw => handleSubmitNewConcept title raw e
  | Regenerate target => handleRegenerate target e
  | SwitchVersion target index => (setIdeas (handleSwitchVersion target index) e, None)
  | RemoveIdea target => (handleRemoveIdea target e, None)
  | BringToFront target => (handleBringToFront target e, None)
  | MainArrived target data => (mainArrived target data e, None)
  | SuggestionsArrived target r paths => (suggestionsArrived target r paths e, None)
  | ArtArrived target ascii => (artArrived target ascii e, None)
  | Failed target message => (failed target message e, None)
  end.

Definition step (e : State) (ev : Event) : State := (handle ev e).1.

Definition run (evs : list Event) (e : State) : State := foldl step e evs.

(** States the engine can be in: from the initial state by events. *)
Inductive reachable : State -> Prop :=
  | reachable_initial : reachable initial
  | reachable_step e ev : reachable e -> reachable (step e ev).

(** Ids are handed out by the counter: pairwise distinct, all below it. *)
Definition ids_fresh (e : State) : Prop :=
  NoDup (id <$> ideas e) /\ Forall (fun i => id i < ideaIdCounter e) (ideas e).

(** Events that neither insert nor delete a node. *)
Definition keeps_nodes (ev : Event) : bool :=
  match ev with
  | RectSelect _ | StartTopic _ _ _ | ExploreTerm _ _ | SuggestionClick _ _
  | SubmitNewConcept _ _ | RemoveIdea _ => false
  | _ => true
  end.

End Engine.

(** ** Viewport controller *)

Module Viewport.

Record State := mkViewport { panOffset : Point; zoom : Q }.

Definition initial : State := mkViewport (mkPoint 0 0) 1.

(** [Math.min(Math.max(prevZoom + delta, 0.3), 2.0)] *)
Definition clampZoom (z : Q) : Q := Qmin (Qmax z 0.3) 2.0.

Definition handleZoom (delta : Q) (center : Point) (v : State) : State :=
  let prevZoom := zoom v in
  let nextZoom := clampZoom (prevZoom + delta) in
  if Qeq_bool nextZoom prevZoom then v
  else
    let prevPan := panOffset v in
    mkViewport
      (mkPoint (px center - (px center - px prevPan) * (nextZoom / prevZoom))
               (py center - (py center - py prevPan) * (nextZoom / prevZoom)))
      nextZoom.

Definition zoomIn (v : State) : State :=
  mkViewport (panOffset v) (Qmin (zoom v + 0.1) 2.0).

Definition zoomOut (v : State) : State :=
  mkViewport (panOffset v) (Qmax (zoom v - 0.1) 0.3).

(** [screenToWorld] of the grid component. [container] is the bounding
    rectangle's [(left, top)], [None] while the ref is not attached. *)
Definition screenToWorld (container : option (Q * Q)) (v : State)
    (clientX clientY : Q) : Point :=
  match container with
  | None => mkPoint 0 0
  | Some (rectLeft, rectTop) =>
      mkPoint ((clientX - rectLeft - px (panOffset v)) / zoom v)
              ((clientY - rectTop - py (panOffset v)) / zoom v)
  end.

(** The grid container is laid out [absolute inset-0] in a full-size box
    of the [fixed inset-0] root: its bounding rectangle starts at the
    window's origin. *)
Definition gridContainer : option (Q * Q) := Some (0%Q, 0%Q).

End Viewport.

(** ** Concrete sessions used as test inputs *)

Module Scenario.
Import Geometry Store Provider Engine.
Local Open Scope string_scope.

Definition rectA : Rect := mkRect 0 0 300 200.
Definition rectB : Rect := mkRect 50 50 300 200.

Definition v0 : IdeaVersion := mkVersion "first" (Some "art0") None (Some ["fir"]).

(** A finished node with one version, the version being live. *)
Definition n0 : Idea :=
  mkIdea 0 rectA "first" (Some "art0") None ["fir"] [v0] 0 false false None false.

(** A second node, still waiting for its main content. *)
Definition n1 : Idea := tempIdea 1 (mkRect 400 0 300 200).

Definition one_node : State :=
  mkState "topic" [n0] None [] false 5 (Some 1000) 1.

Definition two_nodes : State :=
  mkState "topic" [n0; n1] None [] false 5 (Some 1000) 2.

Definition d1 : MainContent := mkMain "second" (Some "then") ["sec"].

(** Regeneration of node 0 whose user goes back to version 0 while the
    art is still loading. *)
Definition switch_during_art : list Event :=
  [Regenerate 0; MainArrived 0 d1; SwitchVersion 0 0; ArtArrived 0 "art1"].

(** A session: a topic is started, its content arrives, a rectangle is
    drawn over the first node. *)
Definition session : list Event :=
  [StartTopic "topic" rectA 1000; MainArrived 0 d1; RectSelect rectB].

Definition after_session : State := run session initial.

(** A term of the first node is clicked in that session. *)
Definition explore : Event := ExploreTerm "sec" (mkRect 400 0 300 200).


(** Node 1 is removed while it is still loading. *)
Definition after_removal : State := step two_nodes (RemoveIdea 1).

(** A provider response of two suggestions. *)
Definition two_items : outcome (list string) := Resolved ["left"; "right"].

(** A node next to the right end of node 0's toolbar band. *)
Definition beside_toolbar : Idea := tempIdea 1 (mkRect 300 (-60) 100 40).

End Scenario.

(** ** Canvas: pointer selection and the world-to-screen transform
    ([QuadrantGrid]) and the camera ([centerOnRect], zoom buttons) *)

Module Canvas.
Import Store Viewport.



(** Where a world point is drawn inside the grid container: the ghost
    frame's [left]/[top], which is also what the canvas transform
    [translate(pan) scale(zoom)] with origin [0 0] does to its children. *)
Definition worldToScreen (v : State) (p : Point) : Point :=
  mkPoint (px p * zoom v + px (panOffset v)) (py p * zoom v + py (panOffset v)).

(** [centerOnRect]; [innerWidth], [innerHeight] are the window's. *)
Definition centerOnRect (innerWidth innerHeight : Q) (r : Rect) (v : State) : State :=
  mkViewport
    (mkPoint (innerWidth / 2 - (x r + width r / 2) * zoom v)
             (innerHeight / 2 - (y r + height r / 2) * zoom v))
    (zoom v).

(** The wheel handler once it has decided not to leave the event to an
    active scrolling text box: [ctrlKey] zooms about the pointer,
    otherwise the wheel pans. *)
Definition handleWheel (ctrlKey : bool) (deltaX deltaY clientX clientY : Q)
    (v : State) : State :=
  if ctrlKey
  then handleZoom (- deltaY * 0.01) (mkPoint clientX clientY) v
  else mkViewport (mkPoint (px (panOffset v) - deltaX) (py (panOffset v) - deltaY))
                  (zoom v).

(** Everything that writes the viewport. *)
Inductive Op :=
  | Wheel (ctrlKey : bool) (deltaX deltaY clientX clientY : Q)
  | ZoomIn
  | ZoomOut
  | CenterOn (innerWidth innerHeight : Q) (r : Rect).

Definition apply (v : State) (op : Op) : State :=
  match op with
  | Wheel c dx dy cx cy => handleWheel c dx dy cx cy v
  | ZoomIn => zoomIn v
  | ZoomOut => zoomOut v
  | CenterOn w h r => centerOnRect w h r v
  end.

End Canvas.

(** ** Connectors ([Connector], [SuggestionConnector], [sortedIdeas]) *)

Module Routing.
Import Store.

Inductive Dir := V | H.

(** An edge midpoint with the orientation of its control handle. *)
Record Anchor := mkAnchor { ax : Q; ay : Q; dir : Dir }.

Definition getMidpoints (r : Rect) : list Anchor :=
  [ mkAnchor (x r + width r / 2) (y r) V;
    mkAnchor (x r + width r / 2) (y r + height r) V;
    mkAnchor (x r) (y r + height r / 2) H;
    mkAnchor (x r + width r) (y r + height r / 2) H ].

(** [Math.pow(sP.x - tP.x, 2) + Math.pow(sP.y - tP.y, 2)] *)
Definition dist (sP tP : Anchor) : Q :=
  (ax sP - ax tP) * (ax sP - ax tP) + (ay sP - ay tP) * (ay sP - ay tP).

(** The loop state: [bestSource], [bestTarget], [minDist]; [None] is
    [Infinity]. *)
Record Best := mkBest {
  bestSource : Anchor;
  bestTarget : Anchor;
  minDist : option Q
}.

(** [dist < minDist] *)
Definition closer (d : Q) (m : option Q) : bool :=
  match m with
  | None => true
  | Some m' => Qlt_bool d m'
  end.

Definition visit (sP : Anchor) (st : Best) (tP : Anchor) : Best :=
  if closer (dist sP tP) (minDist st)
  then mkBest sP tP (Some (dist sP tP))
  else st.

(** The two nested [for ... of] loops over given midpoint lists. *)
Definition search (sourceMidpoints targetMidpoints : list Anchor) (st : Best) : Best :=
  foldl (fun st sP => foldl (visit sP) st targetMidpoints) st sourceMidpoints.

Definition topOf (r : Rect) : Anchor := mkAnchor (x r + width r / 2) (y r) V.

Definition anchors (source target : Rect) : Best :=
  search (getMidpoints source) (getMidpoints target)
         (mkBest (topOf source) (topOf target) None).

(** [Math.min(|dx|, |dy|, 50) + 20] *)
Definition offset (b : Best) : Q :=
  Qmin (Qmin (Qabs (ax (bestSource b) - ax (bestTarget b)))
             (Qabs (ay (bestSource b) - ay (bestTarget b)))) 50 + 20.

(** A control point: the anchor [p] moved along its own orientation,
    towards [q] when [q] lies strictly further along that axis. *)
Definition control (p q : Anchor) (off : Q) : Q * Q :=
  match dir p with
  | V => (ax p, (ay p + (if Qlt_bool (ay p) (ay q) then off else - off))%Q)
  | H => ((ax p + (if Qlt_bool (ax p) (ax q) then off else - off))%Q, ay p)
  end.

Definition cp1 (b : Best) : Q * Q := control (bestSource b) (bestTarget b) (offset b).
Definition cp2 (b : Best) : Q * Q := control (bestTarget b) (bestSource b) (offset b).

(** [SuggestionConnector]: start, the two control points, end. *)
Record Curve := mkCurve { c_start : Q * Q; c_cp1 : Q * Q; c_cp2 : Q * Q; c_end : Q * Q }.

Definition suggestionCurve (source : Rect) (target : Suggestion) : Curve :=
  let startX := (x source + width source)%Q in
  let startY := (y source + height source / 2)%Q in
  let endX := (x target - 1)%Q in
  let endY := (y target + height target / 2)%Q in
  let midX := ((startX + endX) / 2)%Q in
  mkCurve (startX, startY) (midX, startY) (midX, endY) (endX, endY).

(** [sortedIdeas] *)
Definition sortedIdeas (ideas : list Idea) : list Idea := sort_by_id ideas.

(** The connectors drawn over [sortedIdeas]: none at index 0, otherwise
    one between the previous and the current node, from the smaller id to
    the larger. *)
Definition connectors (ideas : list Idea) : list (Idea * Idea) :=
  let sorted := sortedIdeas ideas in
  omap (fun o => o)
    (imap (fun index idea =>
             if (index =? 0)%nat then None
             else match sorted !! (index - 1)%nat with
                  | Some prevIdea =>
                      Some (if id prevIdea <? id idea then (prevIdea, idea)
                            else (idea, prevIdea))
                  | None => None
                  end)
          sorted).

End Routing.

(** ** Node toolbar ([ResponseDisplay]) *)

Module Display.
Import Store.

Definition lookup : list (string * Z) :=
  [("M", 1000); ("CM", 900); ("D", 500); ("CD", 400);
   ("C", 100); ("XC", 90); ("L", 50); ("XL", 40);
   ("X", 10); ("IX", 9); ("V", 5); ("IV", 4); ("I", 1)]%string.

(** [char.repeat(k)] *)
Fixpoint repeat_string (s : string) (k : nat) : string :=
  match k with
  | O => EmptyString
  | S k' => (s ++ repeat_string s k')%string
  end.

(** The callback of [lookup.reduce]; the pair is [(acc, n)]. *)
Definition roman_step (st : string * Z) (entry : string * Z) : string * Z :=
  ((st.1 ++ repeat_string entry.1 (Z.to_nat (st.2 / entry.2)))%string,
   st.2 mod entry.2).

Definition toRoman (num : Z) : string :=
  if num <=? 0 then "0"%string
  else (foldl roman_step (EmptyString, num) lookup).1.

(** The first character of a string literal. *)
Definition letter (s : string) : Ascii.ascii :=
  match s with
  | String c _ => c
  | EmptyString => Ascii.zero
  end.

(** The value of a Roman letter, and of a numeral read with the usual
    subtractive rule (a letter before a larger one counts negative); the
    reading a person applies to the label, not code of the repository. *)
Definition letter_value (a : Ascii.ascii) : Z :=
  if Ascii.eqb a (letter "M") then 1000 else
  if Ascii.eqb a (letter "D") then 500 else
  if Ascii.eqb a (letter "C") then 100 else
  if Ascii.eqb a (letter "L") then 50 else
  if Ascii.eqb a (letter "X") then 10 else
  if Ascii.eqb a (letter "V") then 5 else
  if Ascii.eqb a (letter "I") then 1 else 0.

Fixpoint roman_value (s : string) : Z :=
  match s with
  | EmptyString => 0
  | String a rest =>
      match rest with
      | String b _ =>
          if letter_value a <? letter_value b
          then roman_value rest - letter_value a
          else roman_value rest + letter_value a
      | EmptyString => letter_value a
      end
  end.

(** [handleCycleVersion]: the [(id, index)] passed to [onSwitchVersion],
    nothing for a node with at most one version. *)
Definition handleCycleVersion (idea : Idea) : option (Z * Z) :=
  if (length (versions idea) <=? 1)%nat then None
  else Some (id idea,
             (currentVersionIndex idea + 1) mod Z.of_nat (length (versions idea))).

(** The click on the version button of a node of the store. *)
Definition cycleVersion (idea : Idea) (ideas : list Idea) : list Idea :=
  match handleCycleVersion idea with
  | Some (target, nextIndex) => handleSwitchVersion target nextIndex ideas
  | None => ideas
  end.

(** What that click does to the clicked node itself. *)
Definition cycled (idea : Idea) : Idea :=
  match handleCycleVersion idea with
  | Some (target, nextIndex) => switchVersion target nextIndex idea
  | None => idea
  end.

End Display.

(** ** Semantic points, term exploration and the provider wrappers *)

Module Semantic.
Import Geometry Store Provider Engine.



(** [rawRect] of [handleExploreTerm]; [r1], [r2], [r3] are the three
    [Math.random()] draws in the order they are made. *)
Definition exploreRawRect (sourceIdea : Rect) (r1 r2 r3 : Q) : Rect :=
  let widthMultiplier := (0.6 + r1 * 0.8)%Q in
  let heightMultiplier := (0.6 + r2 * 0.8)%Q in
  let newWidth := Qmax 200 (Qmin 500 (width sourceIdea * widthMultiplier)) in
  let newHeight := Qmax 150 (Qmin 400 (height sourceIdea * heightMultiplier)) in
  mkRect (x sourceIdea + width sourceIdea + 60)
         (y sourceIdea + (r3 * 100 - 50))
         newWidth newHeight.

Section Art.
(** [String.prototype.trim], not modelled: any function on strings. *)
Variable trim : string -> string.

(** [getQuadrantAsciiArt]: [response] is [response.text] of the model
    call, absent ([None]) or a string. *)
Definition getQuadrantAsciiArt (response : outcome (option string)) : string :=
  match response with
  | Resolved (Some t) =>
      if truthy (trim t) then trim t else "(Schematic Unavailable)"%string
  | Resolved None => "(Schematic Unavailable)"%string
  | Rejected _ => "(Diagram Calibration Error)"%string
  end.

(** [generateContentForIdea] from its start to its end with the three
    provider wrappers, nothing else happening in between. *)
Definition generate (target : Z) (r : Rect) (currentContext : string)
    (main : outcome MainContent) (sugg : outcome (list string))
    (art : outcome (option string)) (e : State) : State :=
  chain target r "An error occurred." main sugg
        (Resolved (getQuadrantAsciiArt art))
        (generateContentForIdea target r currentContext e).1.

End Art.

(** The live projection agrees with the selected version: no version and
    index -1 with empty text, or a valid index whose version carries the
    live text, bridge and terms. *)
Definition in_sync (i : Idea) : Prop :=
  (versions i = [] /\ currentVersionIndex i = -1 /\ text i = EmptyString)
  \/ exists v, js_index (versions i) (currentVersionIndex i) = Some v
               /\ text i = v_text v
               /\ bridgeText i = v_bridgeText v
               /\ terms i = default [] (v_terms v).

End Semantic.

(** ** Events between two stages of a chain *)

Module Interleaving.
Import Store Engine.



End Interleaving.

(** ** More test inputs *)

Module Samples.
Import Geometry Store Provider Engine.

(** A node with three versions, the first one selected. *)
Definition three_versions : Idea :=
  mkIdea 0 Scenario.rectA "first" (Some "art0") None ["fir"]
         [Scenario.v0; newVersion Scenario.d1; newVersion Scenario.d1] 0
         false false None false.

Definition dB : MainContent := mkMain "third" None ["thi"].

(** Node 0 is regenerated twice before either main content arrives; the
    art of the first regeneration arrives after both versions are in. *)
Definition two_regenerations : list Event :=
  [Regenerate 0; Regenerate 0; MainArrived 0 Scenario.d1; MainArrived 0 dB;
   ArtArrived 0 "artA"].

Definition half_zoom : Viewport.State :=
  Viewport.mkViewport (mkPoint 40 (-30)) 0.5.

(** The second of the three fallback suggestions next to node A. *)
Definition middle_edge : Suggestion :=
  match materialize 0 Scenario.rectA fallbackSuggestions !! 1%nat with
  | Some s => s
  | None => mkSuggestion EmptyString 0 EmptyString Scenario.rectA
  end.

(** Three nodes listed out of id order. *)
Definition shuffled : list Idea :=
  [tempIdea 3 Scenario.rectA; tempIdea 1 Scenario.rectB; tempIdea 2 Scenario.rectA].

End Samples.

(** * Properties *)

(** ** Placement *)

Module PlacementProps.
Import Geometry.

Section Loops.
Context {A B : Type}.
Implicit Types (f : A -> option B) (l : list A).

Lemma first_some_ext f g l :
  (forall a, a ∈ l -> f a = g a) -> first_some f l = first_some g l.
Proof.
  induction l as [|a l IH]; intros Hfg; simpl; [done|].
  rewrite (Hfg a) by left.
  destruct (g a); [done|]. apply IH. intros; apply Hfg. by right.
Qed.

Lemma first_some_app f l1 l2 :
  first_some f (l1 ++ l2) =
  match first_some f l1 with Some b => Some b | None => first_some f l2 end.
Proof.
  induction l1 as [|a l1 IH]; simpl; [done|]. by destruct (f a).
Qed.

Lemma first_some_filter f (p : A -> bool) l :
  first_some f (List.filter p l) =
  first_some (fun a => if p a then f a else None) l.
Proof.
  induction l as [|a l IH]; simpl; [done|].
  destruct (p a); simpl; rewrite IH; done.
Qed.

(** What [first_some] finds: the list splits at the first answer, or no
    element answers. *)
Lemma first_some_spec f l :
  match first_some f l with
  | Some b => exists pre a post,
      l = pre ++ a :: post /\ Forall (fun a' => f a' = None) pre /\ f a = Some b
  | None => Forall (fun a => f a = None) l
  end.
Proof.
  induction l as [|a l IH]; simpl; [by constructor|].
  destruct (f a) as [b|] eqn:Hfa.
  - exists [], a, l. by repeat split.
  - destruct (first_some f l) as [b|].
    + destruct IH as (pre & a' & post & -> & Hpre & Ha').
      exists (a :: pre), a', post. repeat split; [|done]. by constructor.
    + by constructor.
Qed.

End Loops.

Lemma first_some_bind {A B C} (f : B -> option C) (g : A -> list B) (l : list A) :
  first_some f (l ≫= g) = first_some (fun a => first_some f (g a)) l.
Proof.
  induction l as [|a l IH]; [done|].
  rewrite bind_cons, first_some_app, IH. done.
Qed.

Lemma for_from_first_some {A} (body : Z -> option A) n i :
  for_from n i body = first_some body (seqZ i (Z.of_nat n)).
Proof.
  revert i; induction n as [|n IH]; intros i; [done|].
  rewrite seqZ_cons by lia. simpl for_from. simpl first_some.
  destruct (body i); [done|].
  rewrite IH. do 2 f_equal; lia.
Qed.

Lemma for_range_first_some {A} (body : Z -> option A) lo hi :
  for_range lo hi body = first_some body (seqZ lo (hi - lo + 1)).
Proof.
  unfold for_range. rewrite for_from_first_some.
  f_equal. unfold seqZ. by rewrite Nat2Z.id.
Qed.

(** The three nested loops of [findValidSpot] visit [scan] in order. *)
Lemma loops_scan (ideas : list Idea) (r0 : Rect) :
  for_range 1 maxRings (fun r =>
    for_range (- r) r (fun dx =>
      for_range (- r) r (fun dy =>
        if negb (Z.abs dx =? r) && negb (Z.abs dy =? r) then None
        else if negb (isOverlap ideas (testRect r0 dx dy))
             then Some (testRect r0 dx dy)
             else None)))
  = first_some (fun o => if clears ideas r0 o
                         then Some (testRect r0 o.1 o.2) else None) scan.
Proof.
  unfold scan. rewrite for_range_first_some, first_some_bind.
  apply first_some_ext; intros r _.
  unfold ring. rewrite for_range_first_some, first_some_filter, first_some_bind.
  replace (r - - r + 1) with (2 * r + 1) by lia.
  apply first_some_ext; intros dx _.
  rewrite for_range_first_some, first_some_bind.
  replace (r - - r + 1) with (2 * r + 1) by lia.
  apply first_some_ext; intros dy _.
  unfold on_perimeter, clears; simpl.
  destruct (Z.abs dx =? r), (Z.abs dy =? r); simpl;
    by destruct (isOverlap ideas (testRect r0 dx dy)).
Qed.

(** The offsets of [scan] are exactly those of the rings 1 to 40. *)
Lemma elem_of_scan (dx dy : Z) :
  (dx, dy) ∈ scan <->
  exists r, 1 <= r <= 40 /\ Z.abs dx <= r /\ Z.abs dy <= r
            /\ (Z.abs dx = r \/ Z.abs dy = r).
Proof.
  unfold scan, ring, maxRings. rewrite list_elem_of_bind. split.
  - intros (r & Hin & Hr). apply elem_of_seqZ in Hr.
    apply list_elem_of_In, filter_In in Hin as [Hin Hp].
    apply list_elem_of_In, list_elem_of_bind in Hin as (dx' & Hin & Hdx).
    apply list_elem_of_bind in Hin as (dy' & Hin & Hdy).
    apply list_elem_of_singleton in Hin. injection Hin as -> ->.
    apply elem_of_seqZ in Hdx, Hdy.
    unfold on_perimeter in Hp; simpl in Hp.
    exists r. repeat split; try lia.
  - intros (r & Hr & Hdx & Hdy & Hp). exists r. split.
    + apply list_elem_of_In, filter_In. split.
      * apply list_elem_of_In, list_elem_of_bind. exists dx. split.
        -- apply list_elem_of_bind. exists dy. split; [by left|].
           apply elem_of_seqZ; lia.
        -- apply elem_of_seqZ; lia.
      * unfold on_perimeter; simpl. lia.
    + apply elem_of_seqZ; lia.
Qed.

(** No overlap means: every node is at least the gap of 24 away along x
    or along y. *)
Lemma isOverlap_false_iff (ideas : list Idea) (r : Rect) :
  isOverlap ideas r = false <->
  Forall (fun idea : Idea =>
            (x r + width r + 24 <= x idea)%Q \/ (x idea + width idea + 24 <= x r)%Q \/
            (y r + height r + 24 <= y idea)%Q \/ (y idea + height idea + 24 <= y r)%Q)
         ideas.
Proof.
  unfold isOverlap, isOverlap_gap.
  induction ideas as [|idea ideas IH]; cbn [existsb].
  - split; [constructor|reflexivity].
  - rewrite orb_false_iff, IH, List.Forall_cons_iff.
    apply and_iff_compat_r. unfold overlaps, GRID_GAP.
    rewrite negb_false_iff, !orb_true_iff, !Qle_bool_iff. tauto.
Qed.

(** C1. [findValidSpot] is total and keeps width and height. It returns
    the desired rectangle itself when that clears every node with the gap
    (every node at least 24 away along x or along y). Otherwise it returns
    the rectangle moved by [(dx*20, dy*20)] for the first offset of the
    ring scan (rings 1 to 40, perimeter offsets only) whose moved
    rectangle clears every node; when the rectangle moved by any offset of
    the scan overlaps some node, it returns the desired rectangle. *)
Theorem findValidSpot_ring_search (ideas : list Idea) (r0 : Rect) :
  let res := findValidSpot ideas r0 in
  width res = width r0 /\ height res = height r0 /\
  (forall dx dy, (dx, dy) ∈ scan <->
     exists r, 1 <= r <= 40 /\ Z.abs dx <= r /\ Z.abs dy <= r
               /\ (Z.abs dx = r \/ Z.abs dy = r)) /\
  (forall r, isOverlap ideas r = false <->
     Forall (fun idea : Idea =>
               (x r + width r + 24 <= x idea)%Q
               \/ (x idea + width idea + 24 <= x r)%Q
               \/ (y r + height r + 24 <= y idea)%Q
               \/ (y idea + height idea + 24 <= y r)%Q)
            ideas) /\
  ((isOverlap ideas r0 = false /\ res = r0)
   \/ (isOverlap ideas r0 = true /\
       exists pre dx dy post,
         scan = pre ++ (dx, dy) :: post /\
         Forall (fun o =>
                   isOverlap ideas
                     (mkRect (x r0 + inject_Z o.1 * 20) (y r0 + inject_Z o.2 * 20)
                             (width r0) (height r0)) = true) pre /\
         isOverlap ideas
           (mkRect (x r0 + inject_Z dx * 20) (y r0 + inject_Z dy * 20)
                   (width r0) (height r0)) = false /\
         res = mkRect (x r0 + inject_Z dx * 20) (y r0 + inject_Z dy * 20)
                      (width r0) (height r0))
   \/ (isOverlap ideas r0 = true /\
       Forall (fun o =>
                 isOverlap ideas
                   (mkRect (x r0 + inject_Z o.1 * 20) (y r0 + inject_Z o.2 * 20)
                           (width r0) (height r0)) = true) scan /\
       res = r0)).
Proof.
  intros res. subst res. unfold findValidSpot.
  destruct (isOverlap ideas r0) eqn:Hov; simpl.
  2:{ split; [done|]. split; [done|]. split; [apply elem_of_scan|].
      split; [apply isOverlap_false_iff|]. by left. }
  rewrite loops_scan.
  pose proof (first_some_spec
    (fun o => if clears ideas r0 o then Some (testRect r0 o.1 o.2) else None)
    scan) as Hspec.
  destruct (first_some _ scan) as [t|].
  - destruct Hspec as (pre & [dx dy] & post & Hscan & Hpre & Ho).
    unfold clears in Ho; simpl in Ho.
    destruct (isOverlap ideas (testRect r0 dx dy)) eqn:Hc; [done|].
    simpl in Ho. injection Ho as <-.
    split; [done|]. split; [done|]. split; [apply elem_of_scan|].
    split; [apply isOverlap_false_iff|].
    right; left. split; [done|]. exists pre, dx, dy, post.
    split; [done|]. split; [|split; [exact Hc|reflexivity]].
    eapply List.Forall_impl; [|exact Hpre]. intros o Hn; simpl in Hn.
    unfold clears in Hn.
    change (isOverlap ideas (testRect r0 o.1 o.2) = true).
    by destruct (isOverlap ideas (testRect r0 o.1 o.2)).
  - split; [done|]. split; [done|]. split; [apply elem_of_scan|].
    split; [apply isOverlap_false_iff|].
    right; right. split; [done|]. split; [|done].
    eapply List.Forall_impl; [|exact Hspec]. intros o Hn; simpl in Hn.
    unfold clears in Hn.
    change (isOverlap ideas (testRect r0 o.1 o.2) = true).
    by destruct (isOverlap ideas (testRect r0 o.1 o.2)).
Qed.

(** The scan starts with the eight neighbours, column by column, and has
    [8 * r] offsets for every ring [r]. *)
Example scan_starts_with_ring_1 :
  take 8 scan = [(-1, -1); (-1, 0); (-1, 1); (0, -1); (0, 1);
                 (1, -1); (1, 0); (1, 1)]
  /\ Z.of_nat (length scan) = 6560.
Proof. split; by vm_compute. Qed.

(** Node A at (0,0) 300x200, a second rectangle wanted at (50,50): it
    lands nine steps to the left and nine steps down, the first offset of
    the scan that clears A, 24 units and more below A's bottom edge. *)
Example placement_next_to_first_node :
  findValidSpot [Store.tempIdea 0 Scenario.rectA] Scenario.rectB
  = testRect Scenario.rectB (-9) 9
  /\ (y Scenario.rectA + height Scenario.rectA + GRID_GAP
      <= y (testRect Scenario.rectB (-9) 9))%Q.
Proof. split; [vm_compute; reflexivity|]. by vm_compute. Qed.

End PlacementProps.

(** ** Node store *)

Module StoreProps.
Import Geometry Store Provider Engine.

Lemma js_index_Some {A} (arr : list A) (i : Z) (v : A) :
  js_index arr i = Some v <-> 0 <= i /\ arr !! Z.to_nat i = Some v.
Proof.
  unfold js_index. destruct (Z.leb_spec 0 i); split.
  - by split.
  - by intros [_ ?].
  - done.
  - lia.
Qed.

Lemma js_index_None {A} (arr : list A) (i : Z) :
  js_index arr i = None <-> i < 0 \/ Z.of_nat (length arr) <= i.
Proof.
  unfold js_index. destruct (Z.leb_spec 0 i).
  - rewrite lookup_ge_None. lia.
  - split; [by left|done].
Qed.

Lemma length_js_replace {A} (arr : list A) i (f : A -> A) :
  length (js_replace arr i f) = length arr.
Proof.
  unfold js_replace. destruct (js_index arr i); [|done]. apply length_insert.
Qed.

Lemma map_id_Forall2 (R : Idea -> Idea -> Prop) target f (l : list Idea) :
  (forall i, id i = target -> R i (f i)) ->
  (forall i, id i <> target -> R i i) ->
  Forall2 R l (map_id target f l).
Proof.
  intros Hf Hn. unfold map_id. induction l as [|i l IH]; [constructor|].
  rewrite fmap_cons. constructor; [|exact IH].
  destruct (Z.eqb_spec (id i) target); auto.
Qed.

Lemma map_id_absent target f (l : list Idea) :
  Forall (fun i => id i <> target) l -> map_id target f l = l.
Proof.
  unfold map_id. induction 1 as [|i l Hi _ IH]; [done|].
  rewrite fmap_cons, IH. by destruct (Z.eqb_spec (id i) target).
Qed.

Lemma map_id_ids target f (l : list Idea) :
  (forall i, id (f i) = id i) -> id <$> map_id target f l = id <$> l.
Proof.
  intros Hf. unfold map_id. rewrite <- list_fmap_compose.
  apply list_fmap_ext. intros _ i _. simpl.
  by destruct (id i =? target).
Qed.

(** C8. [switchVersion(id, idx)]: the versions sequence is never touched;
    a node with another id, and the addressed node when [idx] is outside
    [0, versions.length), stay as they are; inside the range the index
    becomes current and the version's text, art, bridge and terms (an
    absent list of terms reads as the empty list) become the live
    projection, every other field staying as it was. *)
Theorem switchVersion_bounds_checked (target index : Z) (ideas : list Idea) :
  Forall2
    (fun i j =>
       versions j = versions i /\ id j = id i /\
       (id i <> target -> j = i) /\
       (index < 0 \/ Z.of_nat (length (versions i)) <= index -> j = i) /\
       (id i = target -> 0 <= index < Z.of_nat (length (versions i)) ->
        exists v, versions i !! Z.to_nat index = Some v /\
          j = mkIdea (id i) (rect i) (v_text v) (v_asciiArt v) (v_bridgeText v)
                     (default [] (v_terms v)) (versions i) index
                     (isLoading i) (isAsciiLoading i) (error i) (isCollapsed i)))
    ideas (handleSwitchVersion target index ideas).
Proof.
  unfold handleSwitchVersion. induction ideas as [|i ideas IH]; [constructor|].
  rewrite fmap_cons. constructor; [clear IH|exact IH]. unfold switchVersion.
  destruct (Z.eqb_spec (id i) target) as [Heq|Hne].
  - destruct (js_index (versions i) index) as [v|] eqn:Hidx.
    + apply js_index_Some in Hidx as [Hge Hv]. simpl.
      pose proof (lookup_lt_Some _ _ _ Hv).
      split; [done|]. split; [done|]. split; [done|].
      split; [lia|]. intros _ _. by exists v.
    + apply js_index_None in Hidx.
      split; [done|]. split; [done|]. split; [done|]. split; [done|]. lia.
  - split; [done|]. split; [done|]. split; [done|]. split; [done|]. done.
Qed.

(** *** Version history *)

Lemma grows_refl i : grows i i.
Proof. by split. Qed.

Lemma grows_trans i j k : grows i j -> grows j k -> grows i k.
Proof. intros [? ?] [? ?]. split; [congruence|lia]. Qed.

Lemma Forall2_grows_refl l : Forall2 grows l l.
Proof. induction l; constructor; auto using grows_refl. Qed.

Lemma Forall2_grows_trans l1 l2 l3 :
  Forall2 grows l1 l2 -> Forall2 grows l2 l3 -> Forall2 grows l1 l3.
Proof.
  intros H12; revert l3. induction H12 as [|i j l1 l2 Hij _ IH]; intros l3 H23.
  - by inversion H23.
  - inversion H23; subst. constructor; [|by apply IH]. by eapply grows_trans.
Qed.

Lemma map_id_grows target f l :
  (forall i, grows i (f i)) -> Forall2 grows l (map_id target f l).
Proof. intros Hf. apply map_id_Forall2; auto using grows_refl. Qed.

Lemma markLoading_grows i : grows i (markLoading i).
Proof. by split. Qed.

Lemma appendVersion_grows data i : grows i (appendVersion data i).
Proof. split; [done|]. simpl. rewrite length_app. lia. Qed.

Lemma attachArt_grows ascii i : grows i (attachArt ascii i).
Proof. split; [done|]. simpl. by rewrite length_js_replace. Qed.

Lemma setError_grows m i : grows i (setError m i).
Proof. by split. Qed.

Lemma switchVersion_grows target index i : grows i (switchVersion target index i).
Proof.
  unfold switchVersion. destruct (id i =? target); [|apply grows_refl].
  destruct (js_index (versions i) index); [by split|apply grows_refl].
Qed.

Lemma nudge_grows target tb i : grows i (nudge target tb i).
Proof.
  unfold nudge. destruct (id i =? target); [apply grows_refl|].
  destruct (isOverlapping i tb); [|apply grows_refl].
  by destruct (pushes_vertically i tb).
Qed.

Lemma fmap_grows (f : Idea -> Idea) l :
  (forall i, grows i (f i)) -> Forall2 grows l (f <$> l).
Proof.
  intros Hf. induction l as [|i l IH]; [constructor|].
  rewrite fmap_cons. by constructor.
Qed.

Lemma bringToFront_grows target l : Forall2 grows l (bringToFront target l).
Proof.
  unfold bringToFront. destruct (List.find _ l); [|apply Forall2_grows_refl].
  apply fmap_grows. intros; apply nudge_grows.
Qed.

Lemma step_grows ev e :
  keeps_nodes ev = true -> Forall2 grows (ideas e) (ideas (step e ev)).
Proof.
  destruct ev; simpl; try done; intros _; unfold step; simpl.
  - unfold handleRegenerate. destruct (List.find _ (ideas e)); simpl.
    + apply map_id_grows, markLoading_grows.
    + apply Forall2_grows_refl.
  - apply fmap_grows. intros; apply switchVersion_grows.
  - apply bringToFront_grows.
  - apply map_id_grows, appendVersion_grows.
  - unfold suggestionsArrived. destruct (0 <? _)%nat; apply Forall2_grows_refl.
  - apply map_id_grows, attachArt_grows.
  - apply map_id_grows, setError_grows.
Qed.

Lemma run_grows evs e :
  forallb keeps_nodes evs = true -> Forall2 grows (ideas e) (ideas (run evs e)).
Proof.
  revert e. induction evs as [|ev evs IH]; intros e Hk; simpl.
  - apply Forall2_grows_refl.
  - apply andb_prop in Hk as [Hev Hevs].
    eapply Forall2_grows_trans; [by apply step_grows|]. by apply IH.
Qed.

(** A node in the store after any event is a node of the store before it
    with no version lost, or a node just created, without versions. *)
Lemma step_no_version_lost ev e j :
  j ∈ ideas (step e ev) ->
  versions j = [] \/
  exists i, i ∈ ideas e /\ id j = id i
            /\ (length (versions i) <= length (versions j))%nat.
Proof.
  assert (Hcreate : forall newId r (l : list Idea),
    j ∈ map_id newId markLoading (l ++ [tempIdea newId r]) ->
    versions j = [] \/
    exists i, i ∈ l /\ id j = id i
              /\ (length (versions i) <= length (versions j))%nat).
  { intros newId r l Hj. unfold map_id in Hj.
    apply list_elem_of_fmap in Hj as (i & -> & Hi).
    apply elem_of_app in Hi as [Hi|Hi].
    - right. exists i. split; [done|]. by destruct (id i =? newId).
    - apply list_elem_of_singleton in Hi as ->. left.
      by destruct (id _ =? newId). }
  assert (Hkeep : forall l l' : list Idea, Forall2 grows l l' -> j ∈ l' ->
    exists i, i ∈ l /\ id j = id i
              /\ (length (versions i) <= length (versions j))%nat).
  { intros l l' HF Hj. apply list_elem_of_lookup in Hj as [k Hk].
    destruct (Forall2_lookup_r _ _ _ _ _ HF Hk) as (i & Hi & [? ?]).
    exists i. split; [|done]. by eapply list_elem_of_lookup_2. }
  destruct (keeps_nodes ev) eqn:Hk.
  { intros Hj. right. eapply Hkeep; [by apply step_grows|done]. }
  destruct ev; try done; unfold step; simpl.
  - apply Hcreate.
  - intros Hj. left.
    apply list_elem_of_singleton in Hj as ->. by destruct (_ =? _).
  - unfold handleExploreTerm, placeConcept; simpl. intros Hj.
    apply elem_of_app in Hj as [Hj|Hj].
    + right. exists j. by repeat split.
    + apply list_elem_of_singleton in Hj as ->. by left.
  - unfold handleSuggestionClick. destruct (List.find _ (ideas e)); simpl.
    + intros Hj. apply elem_of_app in Hj as [Hj|Hj].
      * right. exists j. by repeat split.
      * apply list_elem_of_singleton in Hj as ->. by left.
    + intros Hj. right. exists j. by repeat split.
  - unfold handleSubmitNewConcept. destruct (truthy title); simpl.
    + intros Hj. apply elem_of_app in Hj as [Hj|Hj].
      * right. exists j. by repeat split.
      * apply list_elem_of_singleton in Hj as ->. by left.
    + intros Hj. right. exists j. by repeat split.
  - intros Hj. apply list_elem_of_In, filter_In in Hj as [Hj _].
    apply list_elem_of_In in Hj. right. exists j. by repeat split.
Qed.

(** C2. Along any sequence of events that neither insert nor delete
    nodes (version append, version switch, regeneration start, art
    attachment, failure, bring to front) every node keeps its id and its
    number of versions never decreases; over any single event no node of
    the resulting store has lost a version. When main content arrives, the
    addressed node gets the new version appended, its current index is
    the new last index, and its live text, bridge and terms are those of
    the appended version; every other node is untouched. *)
Theorem versions_monotone_append_selects_last
    (evs : list Event) (e : State) (target : Z) (data : MainContent) :
  forallb keeps_nodes evs = true ->
  Forall2 (fun i j => id j = id i
                      /\ (length (versions i) <= length (versions j))%nat)
          (ideas e) (ideas (run evs e)) /\
  (forall ev j, j ∈ ideas (step e ev) ->
     versions j = [] \/
     exists i, i ∈ ideas e /\ id j = id i
               /\ (length (versions i) <= length (versions j))%nat) /\
  Forall2 (fun i j =>
             if id i =? target then
               versions j = versions i ++ [newVersion data] /\
               currentVersionIndex j = Z.of_nat (length (versions j)) - 1 /\
               js_index (versions j) (currentVersionIndex j) = Some (newVersion data) /\
               text j = v_text (newVersion data) /\
               bridgeText j = v_bridgeText (newVersion data) /\
               Some (terms j) = v_terms (newVersion data) /\
               isLoading j = false
             else j = i)
          (ideas e) (ideas (mainArrived target data e)).
Proof.
  intros Hk. split; [|split].
  - by apply run_grows.
  - intros ev j. apply step_no_version_lost.
  - simpl. apply map_id_Forall2.
    + intros i ->. rewrite Z.eqb_refl. simpl.
      repeat split. apply js_index_Some. split.
      * rewrite length_app; simpl. lia.
      * apply list_lookup_middle. rewrite length_app; simpl. lia.
    + intros i Hne. by destruct (Z.eqb_spec (id i) target).
Qed.

Lemma versions_monotone_append_selects_last_witness :
  forallb keeps_nodes Scenario.switch_during_art = true /\
  Forall2 grows (ideas Scenario.one_node)
          (ideas (run Scenario.switch_during_art Scenario.one_node)).
Proof.
  split; [reflexivity|].
  exact (proj1 (versions_monotone_append_selects_last
                  Scenario.switch_during_art Scenario.one_node 0 Scenario.d1
                  eq_refl)).
Defined.

(** Regenerating a node with one version: two versions afterwards, the
    second one current and live. *)
Example regenerate_appends :
  exists j,
    ideas (run [Regenerate 0; MainArrived 0 Scenario.d1] Scenario.one_node) = [j] /\
    versions j = [Scenario.v0; newVersion Scenario.d1] /\
    currentVersionIndex j = 1 /\ text j = "second"%string.
Proof. eexists. split; [vm_compute; reflexivity|]. by repeat split. Qed.

End StoreProps.

(** ** Generation chain *)

Module ChainProps.
Import Geometry Store Provider Engine StoreProps.

Lemma setIdeas_same (e : State) : setIdeas (fun l => l) e = e.
Proof. by destruct e. Qed.

Lemma setIdeas_absent target f (e : State) :
  Forall (fun i => id i <> target) (ideas e) ->
  setIdeas (map_id target f) e = e.
Proof.
  intros Habs. destruct e; unfold setIdeas; simpl in *.
  by rewrite map_id_absent.
Qed.

Lemma length_materialize target r paths :
  length (materialize target r paths) = length paths.
Proof. unfold materialize. apply length_imap. Qed.

Lemma materialize_sources target r paths :
  Forall (fun s => sourceId s = target) (materialize target r paths).
Proof.
  unfold materialize. apply Forall_forall. intros s Hs.
  apply list_elem_of_In, list_elem_of_lookup in Hs as [k Hk].
  rewrite list_lookup_imap in Hk.
  destruct (paths !! k); simpl in Hk; [|done]. by injection Hk as <-.
Qed.

Lemma materialize_texts target r paths :
  sugg_text <$> materialize target r paths = paths.
Proof.
  unfold materialize. apply list_eq. intros k.
  rewrite list_lookup_fmap, list_lookup_imap. by destruct (paths !! k).
Qed.









(** With two regenerations of one node in flight and no version switch,
    the art of the first regeneration lands on the version appended by
    the second one; the version the first one appended gets none. *)
Example art_of_first_regeneration_hits_second :
  exists j,
    ideas (run Samples.two_regenerations Scenario.one_node) = [j] /\
    versions j = [Scenario.v0; newVersion Scenario.d1;
                  with_art "artA" (newVersion Samples.dB)].
Proof. eexists. split; [vm_compute; reflexivity|]. reflexivity. Qed.


(** C4 (as the code has it). When no node has the id a continuation is
    for, the node list is left as it is by every continuation: arriving
    art and a failure change nothing at all, arriving main content changes
    the character total only, arriving suggestions change the active
    suggestion set only. *)
Theorem stale_continuation_keeps_nodes
    (target : Z) (data : MainContent) (r : Rect) (suggestedPaths : list string)
    (ascii message : string) (e : State) :
  Forall (fun i => id i <> target) (ideas e) ->
  artArrived target ascii e = e /\
  failed target message e = e /\
  mainArrived target data e
  = setTotalCharsGenerated
      (fun prev => prev + Z.of_nat (String.length (mc_text data))) e /\
  ideas (mainArrived target data e) = ideas e /\
  suggestionsArrived target r suggestedPaths e
  = (if (0 <? length suggestedPaths)%nat
     then setActiveSuggestions (fun _ => materialize target r suggestedPaths) e
     else e) /\
  ideas (suggestionsArrived target r suggestedPaths e) = ideas e.
Proof.
  intros Habs. split; [|split; [|split; [|split; [|split]]]].
  - by apply setIdeas_absent.
  - by apply setIdeas_absent.
  - unfold mainArrived. by rewrite setIdeas_absent.
  - simpl. by apply map_id_absent.
  - done.
  - unfold suggestionsArrived. by destruct (0 <? _)%nat.
Qed.

Lemma stale_continuation_keeps_nodes_witness :
  Forall (fun i => id i <> 1) (ideas Scenario.after_removal) /\
  artArrived 1 "art" Scenario.after_removal = Scenario.after_removal.
Proof.
  assert (H : Forall (fun i => id i <> 1) (ideas Scenario.after_removal)).
  { repeat constructor. simpl. lia. }
  split; [exact H|].
  exact (proj1 (stale_continuation_keeps_nodes 1 Scenario.d1 Scenario.rectA
                  [] "art" "" Scenario.after_removal H)).
Defined.

(** C4 (counterexample). Node 1 is removed while loading; its main
    content and its suggestions arrive afterwards: the character total and
    the active suggestion set of the session change all the same. *)
Lemma stale_continuation_changes_session :
  Forall (fun i => id i <> 1) (ideas Scenario.after_removal) /\
  totalCharsGenerated (step Scenario.after_removal (MainArrived 1 Scenario.d1))
  <> totalCharsGenerated Scenario.after_removal /\
  activeSuggestions Scenario.after_removal = [] /\
  length (activeSuggestions
            (step Scenario.after_removal
               (SuggestionsArrived 1 (rect Scenario.n1) fallbackSuggestions)))
  = 3%nat.
Proof.
  split; [|split; [|split]].
  - repeat constructor. simpl. lia.
  - vm_compute. discriminate.
  - reflexivity.
  - reflexivity.
Qed.

(** C7 (as the code has it). [getSuggestions] yields at most three
    strings, the first three of a longer response. The suggestions stage
    leaves the whole state as it is when the list is empty; for any
    non-empty list, also one of one or two items, the active suggestion
    set becomes exactly one edge per string, all of them pointing at the
    node of this chain, whatever the set held before, and nothing else in
    the state changes. *)
Theorem suggestions_stage_materializes_nonempty
    (response : outcome (list string)) (target : Z) (r : Rect) (e : State) :
  let suggestedPaths := getSuggestions response in
  let e' := suggestionsArrived target r suggestedPaths e in
  (length suggestedPaths <= 3)%nat /\
  (forall l, response = Resolved l -> suggestedPaths = take 3 l) /\
  (suggestedPaths = [] -> e' = e) /\
  (suggestedPaths <> [] ->
     activeSuggestions e' = materialize target r suggestedPaths /\
     length (activeSuggestions e') = length suggestedPaths /\
     sugg_text <$> activeSuggestions e' = suggestedPaths /\
     Forall (fun s => sourceId s = target) (activeSuggestions e') /\
     e' = setActiveSuggestions (fun _ => activeSuggestions e') e).
Proof.
  intros paths e'. subst paths e'. split; [|split; [|split]].
  - destruct response as [l|m]; simpl; [|lia]. rewrite length_take. lia.
  - by intros l ->.
  - by intros ->.
  - intros Hne. unfold suggestionsArrived.
    destruct (getSuggestions response) as [|p paths]; [done|]. simpl.
    split; [done|]. split; [|split; [|split; [|done]]].
    + apply (length_materialize target r (p :: paths)).
    + apply (materialize_texts target r (p :: paths)).
    + apply (materialize_sources target r (p :: paths)).
Qed.

(** C7 (counterexample). A response of two items is shorter than three
    and still produces a suggestion set, of two edges. *)
Lemma two_suggestions_are_materialized :
  (length (getSuggestions Scenario.two_items) < 3)%nat /\
  activeSuggestions initial = [] /\
  length (activeSuggestions
            (suggestionsArrived 0 Scenario.rectA
               (getSuggestions Scenario.two_items) initial))
  = 2%nat.
Proof. simpl. repeat split. lia. Qed.

(** C10. [getSuggestions] answers a failed provider call with its three
    fixed strings. The chain cannot tell such a failure from a response of
    these three strings: with main content and art resolved it runs
    through the art stage, the active suggestion set ends with three edges
    for the node, and started from [generateContentForIdea] the node ends
    without error, with its art, and with both loading flags down. *)
Theorem suggestions_failure_falls_back
    (target : Z) (r : Rect) (currentContext fallback message ascii : string)
    (main : outcome MainContent) (art : outcome string)
    (data : MainContent) (e : State) :
  getSuggestions (Rejected message) = fallbackSuggestions /\
  length fallbackSuggestions = 3%nat /\
  chain target r fallback main (Rejected message) art e
  = chain target r fallback main (Resolved fallbackSuggestions) art e /\
  let e1 := (generateContentForIdea target r currentContext e).1 in
  let e' := chain target r fallback (Resolved data) (Rejected message)
                  (Resolved ascii) e1 in
  e' = artArrived target ascii
         (suggestionsArrived target r fallbackSuggestions
            (mainArrived target data e1)) /\
  error <$> ideas (suggestionsArrived target r fallbackSuggestions
                     (mainArrived target data e1))
  = error <$> ideas (mainArrived target data e1) /\
  activeSuggestions e' = materialize target r fallbackSuggestions /\
  length (activeSuggestions e') = 3%nat /\
  Forall (fun j => id j = target ->
                   error j = None /\ asciiArt j = Some ascii /\
                   isLoading j = false /\ isAsciiLoading j = false)
         (ideas e').
Proof.
  split; [done|]. split; [done|]. split; [done|].
  intros e1 e'. subst e1 e'. split; [done|]. split; [done|].
  split; [done|]. split; [done|].
  simpl. unfold map_id. rewrite <- !list_fmap_compose.
  apply Forall_forall. intros j Hj.
  apply list_elem_of_In, list_elem_of_fmap in Hj as (i & -> & _). simpl.
  destruct (Z.eqb_spec (id i) target) as [Heq|Hne]; simpl.
  - destruct (Z.eqb_spec (id i) target); [|done]. simpl.
    destruct (Z.eqb_spec (id i) target); [|done]. by simpl.
  - destruct (Z.eqb_spec (id i) target); [done|]. simpl.
    by destruct (Z.eqb_spec (id i) target).
Qed.

(** An empty list of suggestions leaves the cleared suggestion set empty. *)
Example no_suggestions_no_edges :
  activeSuggestions
    (suggestionsArrived 0 Scenario.rectA (getSuggestions (Resolved []))
       (generateContentForIdea 0 Scenario.rectA "topic" Scenario.one_node).1)
  = [].
Proof. reflexivity. Qed.

(** Main content arrives, then the art call is rejected: the node keeps
    its new text, carries the error, and both loading flags are down. *)
Example art_failure_after_main :
  exists j,
    ideas (chain 0 Scenario.rectA "An error occurred." (Resolved Scenario.d1)
             (Resolved []) (Rejected "boom")
             (generateContentForIdea 0 Scenario.rectA "topic" Scenario.one_node).1)
    = [j] /\
    text j = "second"%string /\ error j = Some "boom"%string /\
    isLoading j = false /\ isAsciiLoading j = false.
Proof. eexists. split; [vm_compute; reflexivity|]. by repeat split. Qed.

End ChainProps.

(** ** Bring to front *)

Module FrontProps.
Import Geometry Store.

Lemma Qlt_bool_iff (a b : Q) : Qlt_bool a b = true <-> (a < b)%Q.
Proof.
  unfold Qlt_bool. rewrite negb_true_iff, <- not_true_iff_false, Qle_bool_iff.
  split; [apply Qnot_le_lt|apply Qlt_not_le].
Qed.

Lemma Qlt_bool_false (a b : Q) : Qlt_bool a b = false <-> (b <= a)%Q.
Proof.
  unfold Qlt_bool. by rewrite negb_false_iff, Qle_bool_iff.
Qed.

Lemma pushes_vertically_iff (node tb : Rect) :
  pushes_vertically node tb = true <->
  (Qabs (dxCenter node tb) < Qabs (dyCenter node tb))%Q
  \/ (y tb < y node + height node)%Q.
Proof.
  unfold pushes_vertically. by rewrite orb_true_iff, !Qlt_bool_iff.
Qed.

(** C6 (as the code has it). Without a node of the given id the node
    list stays as it is. Otherwise every node keeps its size and all its
    content; the active node and the nodes that do not overlap its toolbar
    band keep their position. Another node that overlaps the band moves
    straight up, to end 10 units above the band, as soon as its vertical
    centre offset is the larger one or its bottom edge lies below the
    band's top edge; only a node whose bottom edge lies exactly on the
    band's top edge and whose horizontal centre offset is at least the
    vertical one moves sideways, 15 units past the band's right end when
    its centre is right of the band's centre and 15 units before the left
    end otherwise. *)
Theorem bringToFront_nudges (target : Z) (prev : list Idea) :
  match List.find (fun n => id n =? target) prev with
  | None => bringToFront target prev = prev
  | Some activeNode =>
      let tb := toolbarRect activeNode in
      Forall2
        (fun node node' =>
           node' = with_rect (rect node') node /\
           width node' = width node /\ height node' = height node /\
           (id node = target -> node' = node) /\
           (isOverlapping node tb = false -> node' = node) /\
           (id node <> target -> isOverlapping node tb = true ->
              ((Qabs (dxCenter node tb) < Qabs (dyCenter node tb)
                \/ y tb < y node + height node)%Q ->
                 x node' = x node /\
                 (y node' + height node' == y tb - 10)%Q) /\
              (~ (Qabs (dxCenter node tb) < Qabs (dyCenter node tb)
                  \/ y tb < y node + height node)%Q ->
                 y node' = y node /\
                 (y node + height node == y tb)%Q /\
                 ((0 < dxCenter node tb)%Q ->
                    (x node' == x tb + width tb + 15)%Q) /\
                 (~ (0 < dxCenter node tb)%Q ->
                    (x node' + width node' == x tb - 15)%Q))))
        prev (bringToFront target prev)
  end.
Proof.
  unfold bringToFront.
  destruct (List.find _ prev) as [activeNode|]; [|done].
  set (tb := toolbarRect activeNode). induction prev as [|node prev IH]; [constructor|].
  rewrite fmap_cons. constructor; [clear IH|exact IH].
  unfold nudge. destruct (Z.eqb_spec (id node) target) as [Heq|Hne].
  { split; [by destruct node|]. by repeat split. }
  destruct (isOverlapping node tb) eqn:Hov.
  2:{ split; [by destruct node|]. by repeat split. }
  destruct (pushes_vertically node tb) eqn:Hpv.
  - apply pushes_vertically_iff in Hpv.
    split; [done|]. split; [done|]. split; [done|]. split; [done|].
    split; [done|]. intros _ _. split; [|done].
    intros _. split; [done|]. simpl. ring.
  - assert (Hnot : ~ ((Qabs (dxCenter node tb) < Qabs (dyCenter node tb))%Q
                      \/ (y tb < y node + height node)%Q)).
    { rewrite <- pushes_vertically_iff. congruence. }
    split; [done|]. split; [done|]. split; [done|]. split; [done|].
    split; [done|]. intros _ _. split; [done|].
    intros _. split; [done|]. split.
    { unfold isOverlapping in Hov.
      apply negb_true_iff in Hov. rewrite !orb_false_iff in Hov.
      destruct Hov as [[[_ _] Hbot] _]. apply Qlt_bool_false in Hbot.
      apply Qle_antisym; [|done].
      apply Qnot_lt_le. intros Hlt. apply Hnot. by right. }
    split.
    + intros Hpos. apply Qlt_bool_iff in Hpos. simpl. rewrite Hpos. ring.
    + intros Hneg. simpl.
      destruct (Qlt_bool 0 (dxCenter node tb)) eqn:Hd.
      * apply Qlt_bool_iff in Hd. done.
      * ring.
Qed.

(** C6 (counterexample). Node 1 overlaps the right end of node 0's
    toolbar band; its horizontal centre offset (200) is far larger than
    its vertical one (5), and it is moved vertically, not horizontally. *)
Lemma nudge_ignores_larger_axis :
  isOverlapping Scenario.beside_toolbar (toolbarRect Scenario.n0) = true /\
  (Qabs (dyCenter Scenario.beside_toolbar (toolbarRect Scenario.n0))
   < Qabs (dxCenter Scenario.beside_toolbar (toolbarRect Scenario.n0)))%Q /\
  exists node',
    bringToFront 0 [Scenario.n0; Scenario.beside_toolbar]
    = [Scenario.n0; node'] /\
    x node' = x Scenario.beside_toolbar /\
    (y node' == -120)%Q /\ ~ (y node' == y Scenario.beside_toolbar)%Q.
Proof.
  split; [reflexivity|]. split; [reflexivity|].
  eexists. split; [vm_compute; reflexivity|].
  split; [reflexivity|]. split; [reflexivity|]. discriminate.
Qed.

End FrontProps.

(** ** Prompt history *)

Module HistoryProps.
Import Geometry Store Provider Engine StoreProps.

Lemma insert_by_id_perm a l : Permutation (insert_by_id a l) (a :: l).
Proof.
  induction l as [|b l IH]; simpl; [done|].
  destruct (id a <=? id b); [done|].
  rewrite IH. apply perm_swap.
Qed.

Lemma sort_by_id_perm l : Permutation (sort_by_id l) l.
Proof.
  induction l as [|a l IH]; simpl; [done|].
  rewrite insert_by_id_perm. by constructor.
Qed.

Lemma insert_by_id_sorted a l :
  StronglySorted (fun u v => id u <= id v) l ->
  StronglySorted (fun u v => id u <= id v) (insert_by_id a l).
Proof.
  induction 1 as [|b l Hl IH Hb]; simpl.
  - repeat constructor.
  - destruct (Z.leb_spec (id a) (id b)).
    + constructor; [by constructor|]. constructor; [done|].
      eapply List.Forall_impl; [|exact Hb]. simpl. intros; lia.
    + constructor; [done|].
      rewrite insert_by_id_perm. constructor; [lia|done].
Qed.

Lemma sort_by_id_sorted l :
  StronglySorted (fun u v => id u <= id v) (sort_by_id l).
Proof.
  induction l as [|a l IH]; simpl; [constructor|].
  by apply insert_by_id_sorted.
Qed.

(** With distinct ids a list sorted by id is strictly ascending. *)
Lemma sorted_strict l :
  NoDup (id <$> l) ->
  StronglySorted (fun u v => id u <= id v) l ->
  StronglySorted (fun u v => id u < id v) l.
Proof.
  induction l as [|a l IH]; intros Hnd Hs; [constructor|].
  rewrite fmap_cons in Hnd. apply list.NoDup_cons in Hnd as [Hnotin Hnd].
  apply StronglySorted_inv in Hs as [Hs Ha].
  constructor; [by apply IH|].
  apply Forall_forall. intros b Hb.
  rewrite Forall_forall in Ha. specialize (Ha b Hb).
  assert (id a <> id b); [|lia].
  intros Heq. apply Hnotin. rewrite Heq.
  apply list_elem_of_fmap_2. by apply list_elem_of_In.
Qed.

Lemma NoDup_ids_filter (p : Idea -> bool) l :
  NoDup (id <$> l) -> NoDup (id <$> List.filter p l).
Proof.
  induction l as [|a l IH]; [done|].
  rewrite fmap_cons. intros [Hnotin Hnd]%list.NoDup_cons. simpl List.filter.
  destruct (p a); [|by apply IH].
  rewrite fmap_cons. apply list.NoDup_cons. split; [|by apply IH].
  intros Hin. apply Hnotin.
  apply list_elem_of_fmap in Hin as (b & Hb & Hin).
  apply list_elem_of_In, filter_In in Hin as [Hin _].
  rewrite Hb. apply list_elem_of_fmap_2. by apply list_elem_of_In.
Qed.

Lemma truthy_nonempty s : truthy s = true <-> s <> EmptyString.
Proof. by destruct s. Qed.




(** *** Ids stay fresh *)

Lemma ids_fresh_same_ids (e e' : State) :
  id <$> ideas e' = id <$> ideas e ->
  ideaIdCounter e' = ideaIdCounter e ->
  ids_fresh e -> ids_fresh e'.
Proof.
  intros Hids Hc [Hnd Hlt]. split; [by rewrite Hids|].
  rewrite Hc. apply Forall_forall. intros i Hi.
  assert (Hin : id i ∈ id <$> ideas e).
  { rewrite <- Hids. apply list_elem_of_fmap_2. by apply list_elem_of_In. }
  apply list_elem_of_fmap in Hin as (i0 & -> & Hi0).
  rewrite Forall_forall in Hlt. apply Hlt. by apply list_elem_of_In.
Qed.

Lemma ids_fresh_push (l : list Idea) (c : Z) (r : Rect) :
  NoDup (id <$> l) -> Forall (fun i => id i < c) l ->
  NoDup (id <$> (l ++ [tempIdea c r]))
  /\ Forall (fun i => id i < c + 1) (l ++ [tempIdea c r]).
Proof.
  intros Hnd Hlt. split.
  - rewrite fmap_app. apply list.NoDup_app. split; [done|]. split.
    + intros n Hn Hc. apply list_elem_of_singleton in Hc. simpl in Hc. subst n.
      apply list_elem_of_fmap in Hn as (i & Hid & Hi).
      rewrite Forall_forall in Hlt.
      apply list_elem_of_In, Hlt in Hi. lia.
    + apply list.NoDup_singleton.
  - apply Forall_app. split.
    + eapply List.Forall_impl; [|exact Hlt]. simpl. intros; lia.
    + repeat constructor. simpl. lia.
Qed.

Lemma fmap_ids (f : Idea -> Idea) (l : list Idea) :
  (forall i, id (f i) = id i) -> id <$> (f <$> l) = id <$> l.
Proof.
  intros Hf. rewrite <- list_fmap_compose.
  apply list_fmap_ext. intros _ i _. apply Hf.
Qed.

Lemma switchVersion_id target index i : id (switchVersion target index i) = id i.
Proof. apply switchVersion_grows. Qed.

Lemma nudge_id target tb i : id (nudge target tb i) = id i.
Proof. apply nudge_grows. Qed.

Lemma placeConcept_fresh name raw activate e :
  ids_fresh e -> ids_fresh (placeConcept name raw activate e).1.
Proof.
  intros [Hnd Hlt]. unfold placeConcept, ids_fresh. simpl.
  destruct activate; simpl; by apply ids_fresh_push.
Qed.

Lemma step_ids_fresh e ev : ids_fresh e -> ids_fresh (step e ev).
Proof.
  intros Hf. pose proof Hf as [Hnd Hlt].
  destruct ev; unfold step; cbn [handle].
  - unfold handleRectSelect, ids_fresh; simpl.
    rewrite map_id_ids by done.
    destruct (ids_fresh_push (ideas e) (ideaIdCounter e)
                (findValidSpot (ideas e) r) Hnd Hlt) as [H1 H2].
    split; [done|]. apply Forall_fmap.
    eapply List.Forall_impl; [|exact H2]. simpl. intros i Hi.
    by destruct (id i =? ideaIdCounter e).
  - unfold startTopic, ids_fresh; simpl. rewrite Z.eqb_refl. simpl.
    split; [apply list.NoDup_singleton|]. repeat constructor. simpl. lia.
  - by apply placeConcept_fresh.
  - unfold handleSuggestionClick. destruct (List.find _ (ideas e)); [|done].
    by apply placeConcept_fresh.
  - unfold handleSubmitNewConcept. destruct (truthy title); [|done].
    by apply placeConcept_fresh.
  - unfold handleRegenerate. destruct (List.find _ (ideas e)); [|done].
    apply (ids_fresh_same_ids e); [|done|exact Hf]. simpl. by apply map_id_ids.
  - apply (ids_fresh_same_ids e); [|done|exact Hf]. simpl.
    apply fmap_ids. intros; apply switchVersion_id.
  - split; simpl.
    + by apply NoDup_ids_filter.
    + apply Forall_forall. intros i [Hi _]%filter_In.
      rewrite Forall_forall in Hlt. by apply Hlt.
  - apply (ids_fresh_same_ids e); [|done|exact Hf]. simpl.
    unfold bringToFront. destruct (List.find _ (ideas e)); [|done].
    apply fmap_ids. intros; apply nudge_id.
  - apply (ids_fresh_same_ids e); [|done|exact Hf]. simpl. by apply map_id_ids.
  - simpl. unfold suggestionsArrived. by destruct (0 <? _)%nat.
  - apply (ids_fresh_same_ids e); [|done|exact Hf]. simpl. by apply map_id_ids.
  - apply (ids_fresh_same_ids e); [|done|exact Hf]. simpl. by apply map_id_ids.
Qed.

Lemma reachable_ids_fresh e : reachable e -> ids_fresh e.
Proof.
  induction 1 as [|e ev _ IH].
  - split; simpl; constructor.
  - by apply step_ids_fresh.
Qed.



End HistoryProps.

(** ** Viewport *)

Module ViewportProps.
Import Viewport.

Lemma clampZoom_range (z : Q) : (0.3 <= clampZoom z /\ clampZoom z <= 2.0)%Q.
Proof.
  unfold clampZoom. split.
  - apply Q.min_glb; [apply Q.le_max_r|done].
  - apply Q.le_min_r.
Qed.

Lemma handleZoom_zoom (delta : Q) (center : Point) (v : State) :
  (zoom (handleZoom delta center v) == clampZoom (zoom v + delta))%Q.
Proof.
  unfold handleZoom.
  destruct (Qeq_bool _ (zoom v)) eqn:Heq; simpl; [|reflexivity].
  apply Qeq_bool_iff in Heq. by symmetry.
Qed.

(** The zoom factor never leaves [0.3, 2.0]. *)
Lemma zoom_stays_in_range (delta : Q) (center : Point) (v : State) :
  (0.3 <= zoom v /\ zoom v <= 2.0)%Q ->
  (0.3 <= zoom (handleZoom delta center v)
   /\ zoom (handleZoom delta center v) <= 2.0)%Q /\
  (0.3 <= zoom (zoomIn v) /\ zoom (zoomIn v) <= 2.0)%Q /\
  (0.3 <= zoom (zoomOut v) /\ zoom (zoomOut v) <= 2.0)%Q.
Proof.
  intros [Hlo Hhi]. split; [|split].
  - rewrite handleZoom_zoom. apply clampZoom_range.
  - simpl. split; [|apply Q.le_min_r].
    apply Q.min_glb; [|done].
    apply Qle_trans with (zoom v + 0)%Q; [by rewrite Qplus_0_r|].
    by apply Qplus_le_r.
  - simpl. split; [apply Q.le_max_r|].
    apply Q.max_lub; [|done].
    apply Qle_trans with (zoom v - 0)%Q; [|by unfold Qminus; rewrite Qplus_0_r].
    unfold Qminus. by apply Qplus_le_r.
Qed.

(** What the clamp computes: the value itself inside [0.3, 2.0], the
    nearer bound outside. *)
Lemma clampZoom_value (z : Q) :
  ((0.3 <= z /\ z <= 2.0)%Q -> (clampZoom z == z)%Q) /\
  ((z < 0.3)%Q -> (clampZoom z == 0.3)%Q) /\
  ((2.0 < z)%Q -> (clampZoom z == 2.0)%Q).
Proof.
  unfold clampZoom.
  destruct (Q.max_spec z 0.3) as [[H1 E1]|[H1 E1]];
    destruct (Q.min_spec (Qmax z 0.3) 2.0) as [[H2 E2]|[H2 E2]];
    rewrite E2; rewrite E1 in H2; try rewrite E1;
    (split; [intros [? ?]|split; intros ?]); lra.
Qed.

(** C5. For a positive current zoom, [handleZoom] moves the zoom to the
    sum of zoom and delta clamped to [0.3, 2.0]: the sum itself inside the
    range, 0.3 below it, 2.0 above it. When the clamped value equals the
    current zoom, zoom and pan offset stay as they are; otherwise the pan
    offset becomes [c - (c - panOffset) * (zoom'/zoom)]; in both cases the
    world point under [c], as [screenToWorld] of the grid computes it, is
    the same before and after. *)
Theorem handleZoom_keeps_point_under_cursor
    (delta : Q) (center : Point) (v : State) :
  (0 < zoom v)%Q ->
  let v' := handleZoom delta center v in
  let nextZoom := clampZoom (zoom v + delta) in
  (0.3 <= nextZoom /\ nextZoom <= 2.0)%Q /\
  (zoom v' == nextZoom)%Q /\
  ((nextZoom == zoom v)%Q -> v' = v) /\
  (~ (nextZoom == zoom v)%Q ->
     zoom v' = nextZoom /\
     px (panOffset v')
     = (px center - (px center - px (panOffset v)) * (nextZoom / zoom v))%Q /\
     py (panOffset v')
     = (py center - (py center - py (panOffset v)) * (nextZoom / zoom v))%Q) /\
  (px (screenToWorld gridContainer v' (px center) (py center))
   == px (screenToWorld gridContainer v (px center) (py center)))%Q /\
  (py (screenToWorld gridContainer v' (px center) (py center))
   == py (screenToWorld gridContainer v (px center) (py center)))%Q /\
  ((0.3 <= zoom v + delta /\ zoom v + delta <= 2.0)%Q ->
     (nextZoom == zoom v + delta)%Q /\ (zoom v' == zoom v + delta)%Q) /\
  ((zoom v + delta < 0.3)%Q -> (nextZoom == 0.3)%Q /\ (zoom v' == 0.3)%Q) /\
  ((2.0 < zoom v + delta)%Q -> (nextZoom == 2.0)%Q /\ (zoom v' == 2.0)%Q).
Proof.
  intros Hpos v' nextZoom.
  pose proof (clampZoom_range (zoom v + delta)) as [Hlo Hhi].
  fold nextZoom in Hlo, Hhi.
  assert (Hnext : ~ (nextZoom == 0)%Q).
  { intros H0. rewrite H0 in Hlo. by apply Qle_not_lt in Hlo. }
  assert (Hz : ~ (zoom v == 0)%Q).
  { intros H0. rewrite H0 in Hpos. by apply Qlt_irrefl in Hpos. }
  assert (Hzoom : (zoom v' == nextZoom)%Q) by apply handleZoom_zoom.
  assert (Hpin :
    ((0.3 <= zoom v + delta /\ zoom v + delta <= 2.0)%Q ->
       (nextZoom == zoom v + delta)%Q /\ (zoom v' == zoom v + delta)%Q) /\
    ((zoom v + delta < 0.3)%Q -> (nextZoom == 0.3)%Q /\ (zoom v' == 0.3)%Q) /\
    ((2.0 < zoom v + delta)%Q -> (nextZoom == 2.0)%Q /\ (zoom v' == 2.0)%Q)).
  { destruct (clampZoom_value (zoom v + delta)) as (Hin & Hbelow & Habove).
    fold nextZoom in Hin, Hbelow, Habove.
    split; [|split]; intros H; rewrite Hzoom; split; auto. }
  split; [done|]. split; [exact Hzoom|].
  clear Hzoom. revert Hpin. subst v'. unfold handleZoom. fold nextZoom.
  destruct (Qeq_bool nextZoom (zoom v)) eqn:Heq; intros Hpin.
  - apply Qeq_bool_iff in Heq.
    split; [done|]. split; [done|]. split; [reflexivity|].
    split; [reflexivity|]. exact Hpin.
  - apply Qeq_bool_neq in Heq.
    split; [done|]. split; [done|]. simpl.
    split; [field; by split|]. split; [field; by split|]. exact Hpin.
Qed.

Lemma handleZoom_keeps_point_under_cursor_witness :
  (0 < zoom initial)%Q /\
  (px (screenToWorld gridContainer
         (handleZoom 0.5 (mkPoint 100 100) initial) 100 100)
   == px (screenToWorld gridContainer initial 100 100))%Q.
Proof.
  assert (Hpos : (0 < zoom initial)%Q) by reflexivity.
  split; [exact Hpos|].
  exact (proj1 (proj2 (proj2 (proj2 (proj2
    (handleZoom_keeps_point_under_cursor 0.5 (mkPoint 100 100) initial Hpos)))))).
Defined.

End ViewportProps.

(** * Further properties of the engine's code *)

(** ** Canvas and camera *)

Module CanvasProps.
Import Store Viewport Canvas FrontProps ViewportProps.


(** X2. The pointer transform and the drawing transform are inverse to
    each other for a non-zero zoom: the world point computed for a pointer
    position is drawn at that position of the grid container, and the
    pointer over a drawn world point is mapped back to that point. *)
Theorem screen_world_round_trip (v : State) (rectLeft rectTop : Q) (p : Point) :
  ~ (zoom v == 0)%Q ->
  (px (worldToScreen v (screenToWorld (Some (rectLeft, rectTop)) v (px p) (py p)))
   == px p - rectLeft)%Q /\
  (py (worldToScreen v (screenToWorld (Some (rectLeft, rectTop)) v (px p) (py p)))
   == py p - rectTop)%Q /\
  (px (screenToWorld (Some (rectLeft, rectTop)) v
         (px (worldToScreen v p) + rectLeft) (py (worldToScreen v p) + rectTop))
   == px p)%Q /\
  (py (screenToWorld (Some (rectLeft, rectTop)) v
         (px (worldToScreen v p) + rectLeft) (py (worldToScreen v p) + rectTop))
   == py p)%Q.
Proof.
  intros Hz. simpl. repeat split; field; exact Hz.
Qed.

Lemma screen_world_round_trip_witness :
  ~ (zoom Samples.half_zoom == 0)%Q /\
  (px (worldToScreen Samples.half_zoom
         (screenToWorld (Some (8, 16)%Q) Samples.half_zoom 100 200))
   == 100 - 8)%Q.
Proof.
  assert (Hz : ~ (zoom Samples.half_zoom == 0)%Q) by discriminate.
  split; [exact Hz|].
  exact (proj1 (screen_world_round_trip Samples.half_zoom 8 16
                  (mkPoint 100 200) Hz)).
Defined.

(** X3. [centerOnRect] keeps the zoom and moves the pan offset so that
    the rectangle's centre is drawn at the middle of the window; for a
    non-zero zoom the pointer at the middle of the window is then over the
    rectangle's centre. *)
Theorem centerOnRect_centres (innerWidth innerHeight : Q) (r : Rect) (v : State) :
  ~ (zoom v == 0)%Q ->
  let v' := centerOnRect innerWidth innerHeight r v in
  let centre := mkPoint (x r + width r / 2) (y r + height r / 2) in
  zoom v' = zoom v /\
  (px (worldToScreen v' centre) == innerWidth / 2)%Q /\
  (py (worldToScreen v' centre) == innerHeight / 2)%Q /\
  (px (screenToWorld gridContainer v' (innerWidth / 2) (innerHeight / 2))
   == px centre)%Q /\
  (py (screenToWorld gridContainer v' (innerWidth / 2) (innerHeight / 2))
   == py centre)%Q.
Proof.
  intros Hz v' centre. subst v' centre. simpl.
  split; [done|]. split; [ring|]. split; [ring|]. split; field; exact Hz.
Qed.

Lemma centerOnRect_centres_witness :
  ~ (zoom Samples.half_zoom == 0)%Q /\
  (px (worldToScreen (centerOnRect 1280 720 Scenario.rectB Samples.half_zoom)
         (mkPoint (x Scenario.rectB + width Scenario.rectB / 2)
                  (y Scenario.rectB + height Scenario.rectB / 2)))
   == 1280 / 2)%Q.
Proof.
  assert (Hz : ~ (zoom Samples.half_zoom == 0)%Q) by discriminate.
  split; [exact Hz|].
  exact (proj1 (proj2 (centerOnRect_centres 1280 720 Scenario.rectB
                         Samples.half_zoom Hz))).
Defined.

(** X4. Whatever the user does to the viewport (wheel pan, wheel zoom,
    zoom buttons, centring), starting from the initial viewport the zoom
    factor stays within [0.3, 2.0], so it is never zero or negative. *)
Theorem zoom_always_in_range (ops : list Op) :
  (0.3 <= zoom (foldl apply initial ops)
   /\ zoom (foldl apply initial ops) <= 2.0
   /\ 0 < zoom (foldl apply initial ops))%Q.
Proof.
  assert (Hgen : forall v, (0.3 <= zoom v /\ zoom v <= 2.0)%Q ->
            (0.3 <= zoom (foldl apply v ops)
             /\ zoom (foldl apply v ops) <= 2.0)%Q).
  { induction ops as [|op ops IH]; intros v Hv; [done|].
    simpl. apply IH. destruct Hv as [Hlo Hhi].
    destruct op as [ctrl dx dy cx cy| | |w h r]; simpl.
    - unfold handleWheel. destruct ctrl; [|done].
      rewrite handleZoom_zoom. apply clampZoom_range.
    - split; [|apply Q.le_min_r]. apply Q.min_glb; [lra|done].
    - split; [apply Q.le_max_r|]. apply Q.max_lub; [lra|done].
    - done. }
  destruct (Hgen initial) as [Hlo Hhi]; [done|].
  split; [done|]. split; [done|]. lra.
Qed.

End CanvasProps.

(** ** Connectors *)

Module RoutingProps.
Import Store Provider Engine Routing FrontProps HistoryProps.

Lemma inner_loop_flat (sP : Anchor) (T : list Anchor) (st : Best) :
  foldl (visit sP) st T
  = foldl (fun st p => visit p.1 st p.2) st (tP ← T; [(sP, tP)]).
Proof.
  revert st. induction T as [|tP T IH]; intros st; [done|].
  rewrite bind_cons. simpl. apply IH.
Qed.

Lemma search_flat (S T : list Anchor) (st : Best) :
  search S T st
  = foldl (fun st p => visit p.1 st p.2) st (sP ← S; tP ← T; [(sP, tP)]).
Proof.
  unfold search. revert st. induction S as [|sP S IH]; intros st; [done|].
  rewrite bind_cons, foldl_app. simpl. rewrite IH. f_equal.
  apply inner_loop_flat.
Qed.

(** What the loop state knows after the pairs [seen]. *)
Lemma visit_keeps_minimum (seen : list (Anchor * Anchor)) (st : Best)
    (pairs : list (Anchor * Anchor)) :
  match minDist st with
  | None => seen = []
  | Some d =>
      d = dist (bestSource st) (bestTarget st)
      /\ (bestSource st, bestTarget st) ∈ seen
      /\ forall p, p ∈ seen ->
           (dist (bestSource st) (bestTarget st) <= dist p.1 p.2)%Q
  end ->
  let st' := foldl (fun st p => visit p.1 st p.2) st pairs in
  match minDist st' with
  | None => seen ++ pairs = []
  | Some d =>
      d = dist (bestSource st') (bestTarget st')
      /\ (bestSource st', bestTarget st') ∈ seen ++ pairs
      /\ forall p, p ∈ seen ++ pairs ->
           (dist (bestSource st') (bestTarget st') <= dist p.1 p.2)%Q
  end.
Proof.
  revert seen st. induction pairs as [|[sP tP] pairs IH]; intros seen st Hinv.
  { simpl. by rewrite app_nil_r. }
  simpl. rewrite (cons_middle (sP, tP)), app_assoc. apply IH. clear IH.
  unfold visit; simpl. destruct (minDist st) as [d|] eqn:Hd; simpl.
  - destruct Hinv as (-> & Hin & Hmin).
    destruct (Qlt_bool (dist sP tP) _) eqn:Hlt; simpl.
    + apply Qlt_bool_iff in Hlt. split; [done|]. split.
      * apply elem_of_app. right. by left.
      * intros p [Hp|Hp]%elem_of_app.
        -- apply Qlt_le_weak. eapply Qlt_le_trans; [exact Hlt|by apply Hmin].
        -- apply list_elem_of_singleton in Hp as ->. apply Qle_refl.
    + apply Qlt_bool_false in Hlt. rewrite Hd. split; [done|]. split.
      * apply elem_of_app. by left.
      * intros p [Hp|Hp]%elem_of_app; [by apply Hmin|].
        by apply list_elem_of_singleton in Hp as ->.
  - subst seen. split; [done|]. split; [by left|].
    intros p Hp. apply list_elem_of_singleton in Hp as ->. apply Qle_refl.
Qed.

(** X5. The connector between two nodes is anchored at an edge midpoint
    of each, and no other pair of edge midpoints, one per node, is closer
    (in squared distance, which the loop also records). *)
Theorem anchors_are_nearest_midpoints (source target : Rect) :
  let b := anchors source target in
  bestSource b ∈ getMidpoints source /\
  bestTarget b ∈ getMidpoints target /\
  minDist b = Some (dist (bestSource b) (bestTarget b)) /\
  forall sP tP, sP ∈ getMidpoints source -> tP ∈ getMidpoints target ->
    (dist (bestSource b) (bestTarget b) <= dist sP tP)%Q.
Proof.
  intros b. subst b. unfold anchors. rewrite search_flat.
  pose proof (visit_keeps_minimum []
    (mkBest (topOf source) (topOf target) None)
    (sP ← getMidpoints source; tP ← getMidpoints target; [(sP, tP)])
    eq_refl) as Hinv.
  cbv zeta in Hinv. rewrite app_nil_l in Hinv.
  set (pairs := sP ← getMidpoints source; tP ← getMidpoints target; [(sP, tP)])
    in *.
  assert (Hpairs : forall sP tP, (sP, tP) ∈ pairs <->
            sP ∈ getMidpoints source /\ tP ∈ getMidpoints target).
  { intros sP tP. subst pairs. rewrite list_elem_of_bind. split.
    - intros (sP' & Hin & HsP).
      apply list_elem_of_bind in Hin as (tP' & Hin & HtP).
      apply list_elem_of_singleton, pair_equal_spec in Hin as [-> ->].
      split; assumption.
    - intros [HsP HtP]. exists sP. split; [|assumption].
      apply list_elem_of_bind. exists tP. split; [left|assumption]. }
  assert (Hne : pairs <> []) by (subst pairs; discriminate).
  clearbody pairs.
  generalize dependent
    (foldl (fun st p => visit p.1 st p.2)
           (mkBest (topOf source) (topOf target) None) pairs).
  intros st' Hinv.
  destruct (minDist st') as [d|] eqn:Hd; [|contradiction].
  destruct Hinv as (-> & Hin & Hmin).
  apply Hpairs in Hin as [HbS HbT].
  split; [exact HbS|]. split; [exact HbT|]. split; [reflexivity|].
  intros sP' tP' HsP' HtP'. apply (Hmin (sP', tP')).
  apply Hpairs. split; assumption.
Qed.

(** X6. The control handles of a connector are between 20 and 70 long,
    and each control point is its anchor moved by exactly that length
    along the anchor's orientation, which for an edge midpoint is the
    direction across its edge: vertical for the top and bottom midpoints,
    horizontal for the left and right ones. *)
Theorem control_points_leave_across_edge (b : Best) (r : Rect) :
  (20 <= offset b /\ offset b <= 70)%Q /\
  match dir (bestSource b) with
  | V => (cp1 b).1 = ax (bestSource b)
         /\ (Qabs ((cp1 b).2 - ay (bestSource b)) == offset b)%Q
  | H => (cp1 b).2 = ay (bestSource b)
         /\ (Qabs ((cp1 b).1 - ax (bestSource b)) == offset b)%Q
  end /\
  match dir (bestTarget b) with
  | V => (cp2 b).1 = ax (bestTarget b)
         /\ (Qabs ((cp2 b).2 - ay (bestTarget b)) == offset b)%Q
  | H => (cp2 b).2 = ay (bestTarget b)
         /\ (Qabs ((cp2 b).1 - ax (bestTarget b)) == offset b)%Q
  end /\
  Forall (fun a =>
            match dir a with
            | V => (ay a = y r \/ ay a = (y r + height r)%Q)
                   /\ ax a = (x r + width r / 2)%Q
            | H => (ax a = x r \/ ax a = (x r + width r)%Q)
                   /\ ay a = (y r + height r / 2)%Q
            end)
         (getMidpoints r).
Proof.
  assert (Hoff : (20 <= offset b /\ offset b <= 70)%Q).
  { unfold offset.
    set (dx := Qabs (ax (bestSource b) - ax (bestTarget b))).
    set (dy := Qabs (ay (bestSource b) - ay (bestTarget b))).
    assert (0 <= dx)%Q by apply Qabs_nonneg.
    assert (0 <= dy)%Q by apply Qabs_nonneg.
    destruct (Q.min_spec dx dy) as [[? Hm]|[? Hm]];
      destruct (Q.min_spec (Qmin dx dy) 50) as [[? Hn]|[? Hn]];
      rewrite Hn; try rewrite Hm; split; lra. }
  assert (Hctl : forall p q : Anchor,
    match dir p with
    | V => (control p q (offset b)).1 = ax p
           /\ (Qabs ((control p q (offset b)).2 - ay p) == offset b)%Q
    | H => (control p q (offset b)).2 = ay p
           /\ (Qabs ((control p q (offset b)).1 - ax p) == offset b)%Q
    end).
  { intros p q. unfold control. destruct Hoff as [Hlo _].
    destruct (dir p); cbn [fst snd]; (split; [done|]).
    - destruct (Qlt_bool (ay p) (ay q)).
      + assert (E : ((ay p + offset b - ay p) == (offset b))%Q) by ring.
        rewrite E.
        apply Qabs_pos. lra.
      + assert (E : ((ay p + - offset b - ay p) == (- offset b))%Q) by ring.
        rewrite E.
        rewrite Qabs_opp. apply Qabs_pos. lra.
    - destruct (Qlt_bool (ax p) (ax q)).
      + assert (E : ((ax p + offset b - ax p) == (offset b))%Q) by ring.
        rewrite E.
        apply Qabs_pos. lra.
      + assert (E : ((ax p + - offset b - ax p) == (- offset b))%Q) by ring.
        rewrite E.
        rewrite Qabs_opp. apply Qabs_pos. lra. }
  split; [exact Hoff|]. split; [apply Hctl|]. split; [apply Hctl|].
  unfold getMidpoints.
  apply List.Forall_cons; [cbn [dir ax ay]; split; [left|]; reflexivity|].
  apply List.Forall_cons; [cbn [dir ax ay]; split; [right|]; reflexivity|].
  apply List.Forall_cons; [cbn [dir ax ay]; split; [left|]; reflexivity|].
  apply List.Forall_cons; [cbn [dir ax ay]; split; [right|]; reflexivity|].
  apply List.Forall_nil.
Qed.

(** X7. An edge is laid out from the rectangle [r] captured when the
    generation started; its connector is drawn from the node's rectangle
    [source] at drawing time, which a nudge may have moved. Every edge
    belongs to its node, starts 100 units right of the captured right edge
    and is 32 high; edge [k] is centred [(k - 1) * 44] below the captured
    centre, so three edges are centred on it. The connector starts at the
    middle of the live right edge and ends one unit before the edge; both
    control points sit halfway between these two abscissae, the first
    level with the live centre and the second with the edge's centre. Its
    vertical extent is the distance between the captured and the live
    centre plus [(k - 1) * 44]: the second edge's connector is horizontal
    exactly when the node's centre has not moved vertically, and it is 99
    long when the right edge has not moved either. *)
Theorem suggestion_edges_are_centred
    (target : Z) (r source : Rect) (paths : list string) (k : nat)
    (s : Suggestion) :
  materialize target r paths !! k = Some s ->
  let curve := suggestionCurve source s in
  let captured := (y r + height r / 2)%Q in
  let live := (y source + height source / 2)%Q in
  let halfway := ((x source + width source + (x r + width r + 99)) / 2)%Q in
  paths !! k = Some (sugg_text s) /\ sourceId s = target /\
  (x s == x r + width r + 100)%Q /\ (height s == 32)%Q /\
  (y s + height s / 2 == captured + (inject_Z (Z.of_nat k) - 1) * 44)%Q /\
  ((c_start curve).1 == x source + width source)%Q /\
  ((c_start curve).2 == live)%Q /\
  ((c_end curve).1 == x r + width r + 99)%Q /\
  ((c_end curve).2 == captured + (inject_Z (Z.of_nat k) - 1) * 44)%Q /\
  ((c_cp1 curve).1 == halfway)%Q /\ ((c_cp1 curve).2 == live)%Q /\
  ((c_cp2 curve).1 == halfway)%Q /\
  ((c_cp2 curve).2 == captured + (inject_Z (Z.of_nat k) - 1) * 44)%Q /\
  ((c_end curve).2 - (c_start curve).2
   == captured - live + (inject_Z (Z.of_nat k) - 1) * 44)%Q /\
  (k = 1%nat ->
   ((c_end curve).2 == (c_start curve).2)%Q <-> (live == captured)%Q) /\
  ((x source + width source == x r + width r)%Q ->
   ((c_end curve).1 - (c_start curve).1 == 99)%Q).
Proof.
  unfold materialize. rewrite list_lookup_imap.
  destruct (paths !! k) as [t|]; [|discriminate]. intros Hs.
  apply (inj Some) in Hs. subst s.
  unfold suggestionCurve, SUGG_HEIGHT, SUGG_GAP.
  cbn [sugg_text sourceId sugg_rect x y width height
       c_start c_end c_cp1 c_cp2 fst snd].
  split; [reflexivity|]. split; [reflexivity|]. split; [reflexivity|].
  split; [reflexivity|]. split; [field|]. split; [reflexivity|].
  split; [reflexivity|]. split; [ring|]. split; [field|].
  split; [field|]. split; [reflexivity|]. split; [field|]. split; [field|].
  split; [field|]. split.
  - intros ->. change (inject_Z (Z.of_nat 1)) with 1%Q. split; intros H.
    + rewrite <- H. field.
    + rewrite H. field.
  - intros H. rewrite H. ring.
Qed.

Lemma suggestion_edges_are_centred_witness :
  materialize 0 Scenario.rectA fallbackSuggestions !! 1%nat
  = Some Samples.middle_edge /\
  sourceId Samples.middle_edge = 0.
Proof.
  assert (H : materialize 0 Scenario.rectA fallbackSuggestions !! 1%nat
              = Some Samples.middle_edge) by reflexivity.
  split; [exact H|].
  exact (proj1 (proj2 (suggestion_edges_are_centred 0 Scenario.rectA
                         Scenario.rectB fallbackSuggestions 1
                         Samples.middle_edge H))).
Defined.

Lemma omap_somes {A} (l : list A) :
  omap (fun o => o) (None :: (Some <$> l)) = l.
Proof.
  simpl. induction l as [|a l IH]; [done|]. rewrite fmap_cons. simpl.
  by rewrite IH.
Qed.

Lemma sorted_adjacent (s : list Idea) (k : nat) (a b : Idea) :
  StronglySorted (fun u v => id u < id v) s ->
  s !! k = Some a -> s !! S k = Some b -> id a < id b.
Proof.
  intros Hs; revert k. induction Hs as [|c s Hs IH Hc]; intros k Ha Hb; [done|].
  destruct k as [|k]; simpl in *.
  - injection Ha as ->. rewrite Forall_forall in Hc. apply Hc.
    apply list_elem_of_In. by eapply list_elem_of_lookup_2.
  - by eapply IH.
Qed.

(** X8. With distinct ids, the connectors join the nodes into one chain
    in ascending id order, whatever the order of the node list: the k-th
    connector goes from the k-th to the (k+1)-th node by id, so there is
    one connector less than there are nodes and each goes from a smaller
    id to a larger one. *)
Theorem connectors_chain_in_id_order (ideas : list Idea) :
  NoDup (id <$> ideas) ->
  connectors ideas = zip (sortedIdeas ideas) (tail (sortedIdeas ideas)) /\
  length (connectors ideas) = (length ideas - 1)%nat /\
  Forall (fun c => id c.1 < id c.2 /\ c.1 ∈ ideas /\ c.2 ∈ ideas)
         (connectors ideas).
Proof.
  intros Hnd.
  pose proof (sort_by_id_perm ideas) as Hperm.
  assert (Hs : StronglySorted (fun u v => id u < id v) (sortedIdeas ideas)).
  { apply sorted_strict; [|apply sort_by_id_sorted].
    unfold sortedIdeas. by rewrite Hperm. }
  assert (Hzip : connectors ideas
                 = zip (sortedIdeas ideas) (tail (sortedIdeas ideas))).
  { unfold connectors. fold (sortedIdeas ideas).
    generalize dependent (sortedIdeas ideas). intros s Hs.
    destruct s as [|a s']; [done|]. cbn [tail].
    rewrite <- (omap_somes (zip (a :: s') s')). f_equal.
    apply list_eq. intros i. rewrite list_lookup_imap.
    destruct i as [|j]; [done|].
    change ((a :: s') !! S j) with (s' !! j).
    change ((None :: (Some <$> zip (a :: s') s')) !! S j)
      with ((Some <$> zip (a :: s') s') !! j).
    rewrite (list_lookup_fmap Some), (lookup_zip_with pair (a :: s') s' j).
    destruct (s' !! j) as [idea|] eqn:Hj.
    - assert (Hlt : (j < length (a :: s'))%nat).
      { apply lookup_lt_Some in Hj. simpl. lia. }
      apply lookup_lt_is_Some_2 in Hlt as [prev Hprev].
      cbn [fmap option_fmap option_map]. cbn [Nat.eqb Nat.sub].
      rewrite Nat.sub_0_r, Hprev. cbn [mbind option_bind].
      assert (id prev < id idea) by (eapply sorted_adjacent; eauto).
      destruct (Z.ltb_spec (id prev) (id idea)); [done|lia].
    - cbn [fmap option_fmap option_map].
      by destruct ((a :: s') !! j). }
  split; [exact Hzip|]. split.
  - rewrite Hzip, length_zip_with, <- (Permutation_length Hperm).
    fold (sortedIdeas ideas). destruct (sortedIdeas ideas) as [|a l]; [done|].
    change (tail (a :: l)) with l. rewrite length_cons. lia.
  - rewrite Hzip. apply Forall_forall. intros [u v] Hc.
    apply list_elem_of_In, list_elem_of_lookup in Hc as [k Hk].
    apply lookup_zip_with_Some in Hk as (u' & v' & Heq & Hu & Hv).
    injection Heq as -> ->. rewrite lookup_tail in Hv.
    split; [by eapply sorted_adjacent|].
    unfold sortedIdeas in Hu, Hv.
    split; rewrite <- Hperm; by eapply list_elem_of_lookup_2.
Qed.

Lemma connectors_chain_in_id_order_witness :
  NoDup (id <$> Samples.shuffled) /\
  length (connectors Samples.shuffled) = 2%nat.
Proof.
  assert (H : NoDup (id <$> Samples.shuffled)).
  { change (id <$> Samples.shuffled) with [3; 1; 2].
    repeat (apply NoDup_cons_2;
            [rewrite list_elem_of_In; simpl; intuition lia|]).
    apply NoDup_nil_2. }
  split; [exact H|].
  exact (proj1 (proj2 (connectors_chain_in_id_order Samples.shuffled H))).
Defined.

End RoutingProps.

(** ** Node toolbar *)

Module DisplayProps.
Import Store Display StoreProps.

Lemma string_app_assoc (a b c : string) :
  ((a ++ b) ++ c)%string = (a ++ (b ++ c))%string.
Proof.
  induction a as [|ch a IH]; [reflexivity|].
  change (String ch ((a ++ b) ++ c) = String ch (a ++ (b ++ c)))%string.
  by f_equal.
Qed.

Lemma roman_fold_state (l : list (string * Z)) (st : string * Z) :
  (foldl roman_step st l).1
  = (st.1 ++ (foldl roman_step (EmptyString, st.2) l).1)%string.
Proof.
  revert st. induction l as [|e l IH]; intros st; cbn [foldl].
  - cbn [fst]. generalize st.1. clear.
    intros a. induction a as [|ch a IH]; [reflexivity|].
    change (String ch a = String ch (a ++ EmptyString))%string. by f_equal.
  - rewrite IH, (IH (roman_step (EmptyString, st.2) e)).
    unfold roman_step. cbn [fst snd].
    change (EmptyString ++ ?x)%string with x.
    apply string_app_assoc.
Qed.

Lemma roman_fold_prefix (l : list (string * Z)) (acc : string) (m : Z) :
  (foldl roman_step (acc, m) l).1
  = (acc ++ (foldl roman_step (EmptyString, m) l).1)%string.
Proof. apply (roman_fold_state l (acc, m)). Qed.

Lemma letter_value_le (a : Ascii.ascii) : letter_value a <= 1000.
Proof.
  unfold letter_value. repeat (destruct (Ascii.eqb a _); [lia|]). lia.
Qed.

Lemma roman_value_thousands (k : nat) (s : string) :
  roman_value (repeat_string "M" k ++ s) = 1000 * Z.of_nat k + roman_value s.
Proof.
  induction k as [|k IH].
  { change (roman_value s = 1000 * 0 + roman_value s). lia. }
  change (repeat_string "M" (S k) ++ s)%string
    with (String (letter "M") (repeat_string "M" k ++ s)).
  cbn [roman_value]. fold roman_value.
  destruct (repeat_string "M" k ++ s)%string as [|b rest] eqn:Hrest.
  - simpl in IH. change (letter_value (letter "M")) with 1000. lia.
  - change (letter_value (letter "M")) with 1000.
    pose proof (letter_value_le b).
    destruct (Z.ltb_spec 1000 (letter_value b)); lia.
Qed.

Lemma roman_below_thousand (m : Z) :
  0 <= m < 1000 ->
  roman_value (foldl roman_step (EmptyString, m) (tail lookup)).1 = m.
Proof.
  intros Hm.
  assert (Hall : forallb
            (fun m => roman_value
                        (foldl roman_step (EmptyString, m) (tail lookup)).1 =? m)
            (seqZ 0 1000) = true) by (vm_compute; reflexivity).
  rewrite forallb_forall in Hall. apply Z.eqb_eq, Hall.
  apply list_elem_of_In, elem_of_seqZ. lia.
Qed.

(** X9. The toolbar's Roman numbering: zero and negative numbers show as
    "0"; every positive number shows as a numeral whose letters, read with
    the subtractive rule, give the number back, so two positive numbers
    never share a label. *)
Theorem toRoman_reads_back (n : Z) :
  (n <= 0 -> toRoman n = "0"%string) /\
  (0 < n -> roman_value (toRoman n) = n) /\
  (forall m, 0 < n -> 0 < m -> toRoman n = toRoman m -> n = m).
Proof.
  assert (Hback : forall k, 0 < k -> roman_value (toRoman k) = k).
  { intros k Hk. unfold toRoman. destruct (Z.leb_spec k 0); [lia|].
    change lookup with (("M"%string, 1000) :: tail lookup).
    cbn [foldl]. unfold roman_step at 2. cbn [fst snd].
    rewrite roman_fold_prefix.
    change (EmptyString ++ ?x)%string with x.
    rewrite roman_value_thousands, roman_below_thousand.
    - rewrite Z2Nat.id by (apply Z.div_pos; lia).
      pose proof (Z.div_mod k 1000). lia.
    - apply Z.mod_pos_bound. lia. }
  split; [|split].
  - intros Hn. unfold toRoman. by destruct (Z.leb_spec n 0); [|lia].
  - apply Hback.
  - intros m Hn Hm Heq. rewrite <- (Hback n Hn), <- (Hback m Hm). by rewrite Heq.
Qed.

Lemma cycled_step (idea : Idea) :
  0 <= currentVersionIndex idea < Z.of_nat (length (versions idea)) ->
  id (cycled idea) = id idea /\
  versions (cycled idea) = versions idea /\
  currentVersionIndex (cycled idea)
  = (currentVersionIndex idea + 1) mod Z.of_nat (length (versions idea)).
Proof.
  intros Hc. unfold cycled, handleCycleVersion.
  destruct (Nat.leb_spec (length (versions idea)) 1) as [Hle|Hgt].
  - split; [done|]. split; [done|].
    assert (length (versions idea) = 1%nat) as -> by lia.
    assert (currentVersionIndex idea = 0) as -> by lia. done.
  - unfold switchVersion. rewrite Z.eqb_refl.
    set (next := (currentVersionIndex idea + 1)
                 mod Z.of_nat (length (versions idea))).
    assert (Hnext : 0 <= next < Z.of_nat (length (versions idea))).
    { apply Z.mod_pos_bound. lia. }
    destruct (js_index (versions idea) next) as [v|] eqn:Hidx; [done|].
    apply js_index_None in Hidx. lia.
Qed.

(** X10. The version button: on a node with a valid current index it
    selects the next version, wrapping around after the last one, and
    never touches the versions; pressed as many times as there are
    versions it is back at the version it started from, and from any
    version every other one is reached within that many presses. *)
Theorem cycling_walks_all_versions (idea : Idea) (k : nat) :
  0 <= currentVersionIndex idea < Z.of_nat (length (versions idea)) ->
  let n := Z.of_nat (length (versions idea)) in
  id (Nat.iter k cycled idea) = id idea /\
  versions (Nat.iter k cycled idea) = versions idea /\
  currentVersionIndex (Nat.iter k cycled idea)
  = (currentVersionIndex idea + Z.of_nat k) mod n /\
  currentVersionIndex (Nat.iter (length (versions idea)) cycled idea)
  = currentVersionIndex idea /\
  (forall j, 0 <= j < n ->
     exists k', (k' < length (versions idea))%nat /\
                currentVersionIndex (Nat.iter k' cycled idea) = j).
Proof.
  intros Hc n.
  assert (Hiter : forall k,
    id (Nat.iter k cycled idea) = id idea /\
    versions (Nat.iter k cycled idea) = versions idea /\
    currentVersionIndex (Nat.iter k cycled idea)
    = (currentVersionIndex idea + Z.of_nat k) mod n).
  { clear k. induction k as [|k (Hid & Hv & Hi)].
    - simpl. split; [done|]. split; [done|].
      rewrite Z.add_0_r, Z.mod_small; [done|exact Hc].
    - change (Nat.iter (S k) cycled idea) with (cycled (Nat.iter k cycled idea)).
      destruct (cycled_step (Nat.iter k cycled idea)) as (Hid' & Hv' & Hi').
      { rewrite Hv, Hi. apply Z.mod_pos_bound. subst n. lia. }
      split; [congruence|]. split; [congruence|].
      rewrite Hi', Hv, Hi. fold n.
      rewrite Zplus_mod_idemp_l. f_equal. lia. }
  destruct (Hiter k) as (H1 & H2 & H3).
  split; [done|]. split; [done|]. split; [done|]. split.
  - destruct (Hiter (length (versions idea))) as (_ & _ & ->). fold n.
    rewrite <- (Z.mul_1_l n) at 1. rewrite Z.mod_add by (subst n; lia).
    apply Z.mod_small. exact Hc.
  - intros j Hj.
    exists (Z.to_nat ((j - currentVersionIndex idea) mod n)).
    pose proof (Z.mod_pos_bound (j - currentVersionIndex idea) n
                  ltac:(subst n; lia)) as Hb.
    split; [subst n; lia|].
    destruct (Hiter (Z.to_nat ((j - currentVersionIndex idea) mod n)))
      as (_ & _ & ->).
    rewrite Z2Nat.id by lia. rewrite Zplus_mod_idemp_r.
    replace (currentVersionIndex idea + (j - currentVersionIndex idea))
      with j by lia.
    apply Z.mod_small. exact Hj.
Qed.

Lemma cycling_walks_all_versions_witness :
  0 <= currentVersionIndex Samples.three_versions
    < Z.of_nat (length (versions Samples.three_versions)) /\
  currentVersionIndex (Nat.iter 2 cycled Samples.three_versions) = 2.
Proof.
  assert (H : 0 <= currentVersionIndex Samples.three_versions
                < Z.of_nat (length (versions Samples.three_versions))).
  { simpl. lia. }
  split; [exact H|].
  exact (proj1 (proj2 (proj2
    (cycling_walks_all_versions Samples.three_versions 2 H)))).
Defined.

End DisplayProps.

(** ** Placement, store and chain, continued *)

Module EngineProps.
Import Geometry Store Provider Engine Semantic.
Import PlacementProps StoreProps ChainProps FrontProps HistoryProps.

(** X11. The overlap test treats its two rectangles alike; it answers no
    exactly when the rectangles are at least the gap apart along x or
    along y; and what overlaps with a gap overlaps with any larger gap. *)
Theorem overlap_test_is_symmetric (a b : Rect) (gap gap' : Q) :
  overlaps a gap b = overlaps b gap a /\
  (overlaps a gap b = false <->
     (x a + width a + gap <= x b)%Q \/ (x b + width b + gap <= x a)%Q \/
     (y a + height a + gap <= y b)%Q \/ (y b + height b + gap <= y a)%Q) /\
  ((gap <= gap')%Q -> overlaps a gap b = true -> overlaps a gap' b = true).
Proof.
  assert (Hsep : forall g, overlaps a g b = false <->
     (x a + width a + g <= x b)%Q \/ (x b + width b + g <= x a)%Q \/
     (y a + height a + g <= y b)%Q \/ (y b + height b + g <= y a)%Q).
  { intros g. unfold overlaps.
    rewrite negb_false_iff, !orb_true_iff, !Qle_bool_iff. tauto. }
  split; [|split; [apply Hsep|]].
  - unfold overlaps.
    destruct (Qle_bool (x a + width a + gap) (x b)),
             (Qle_bool (x b + width b + gap) (x a)),
             (Qle_bool (y a + height a + gap) (y b)),
             (Qle_bool (y b + height b + gap) (y a)); reflexivity.
  - intros Hg Hov. apply not_false_iff_true. intros Hsep'.
    apply not_false_iff_true in Hov. apply Hov.
    apply Hsep. apply Hsep in Hsep'.
    destruct Hsep' as [H|[H|[H|H]]]; [left|right; left|do 2 right; left|do 3 right];
      lra.
Qed.

(** X12. The rectangle [findValidSpot] returns is at least 24 away from
    every node along x or along y, unless the desired rectangle overlaps a
    node and so does the desired rectangle moved by [(dx*20, dy*20)] for
    every offset of the 40 rings, in which case the desired rectangle
    comes back. In an empty store the desired rectangle is kept. *)
Theorem findValidSpot_clears_or_exhausted (ideas : list Idea) (r0 : Rect) :
  (ideas = [] -> findValidSpot ideas r0 = r0) /\
  (Forall (fun idea : Idea =>
             (x (findValidSpot ideas r0) + width (findValidSpot ideas r0) + 24
              <= x idea)%Q
             \/ (x idea + width idea + 24 <= x (findValidSpot ideas r0))%Q
             \/ (y (findValidSpot ideas r0) + height (findValidSpot ideas r0) + 24
                 <= y idea)%Q
             \/ (y idea + height idea + 24 <= y (findValidSpot ideas r0))%Q)
          ideas
   \/ (findValidSpot ideas r0 = r0 /\
       (exists idea : Idea, idea ∈ ideas /\
          ~ ((x r0 + width r0 + 24 <= x idea)%Q
             \/ (x idea + width idea + 24 <= x r0)%Q
             \/ (y r0 + height r0 + 24 <= y idea)%Q
             \/ (y idea + height idea + 24 <= y r0)%Q)) /\
       forall r dx dy,
         1 <= r <= 40 -> Z.abs dx <= r -> Z.abs dy <= r ->
         Z.abs dx = r \/ Z.abs dy = r ->
         exists idea : Idea, idea ∈ ideas /\
           ~ ((x r0 + inject_Z dx * 20 + width r0 + 24 <= x idea)%Q
              \/ (x idea + width idea + 24 <= x r0 + inject_Z dx * 20)%Q
              \/ (y r0 + inject_Z dy * 20 + height r0 + 24 <= y idea)%Q
              \/ (y idea + height idea + 24 <= y r0 + inject_Z dy * 20)%Q))).
Proof.
  assert (Htrue : forall r, isOverlap ideas r = true ->
            exists idea : Idea, idea ∈ ideas /\
              ~ ((x r + width r + 24 <= x idea)%Q
                 \/ (x idea + width idea + 24 <= x r)%Q
                 \/ (y r + height r + 24 <= y idea)%Q
                 \/ (y idea + height idea + 24 <= y r)%Q)).
  { intros r Hr. unfold isOverlap, isOverlap_gap in Hr.
    apply existsb_exists in Hr as (idea & Hin & Hov).
    exists idea. split; [by apply list_elem_of_In|].
    unfold overlaps, GRID_GAP in Hov. apply negb_true_iff in Hov.
    intros Hsep. apply not_true_iff_false in Hov. apply Hov.
    rewrite !orb_true_iff, !Qle_bool_iff. tauto. }
  split.
  { intros ->. reflexivity. }
  unfold findValidSpot.
  destruct (isOverlap ideas r0) eqn:Hov; cbn [negb].
  2:{ left. by apply isOverlap_false_iff. }
  rewrite loops_scan.
  pose proof (first_some_spec
    (fun o => if clears ideas r0 o then Some (testRect r0 o.1 o.2) else None)
    scan) as Hspec.
  destruct (first_some _ scan) as [t|].
  - destruct Hspec as (pre & o & post & _ & _ & Ho).
    unfold clears in Ho.
    destruct (isOverlap ideas (testRect r0 o.1 o.2)) eqn:Hc; [discriminate|].
    cbn [negb] in Ho. apply (inj Some) in Ho. subst t.
    left. by apply isOverlap_false_iff.
  - right. split; [reflexivity|]. split; [by apply Htrue|].
    intros r dx dy Hr Hdx Hdy Hp.
    assert (Hin : (dx, dy) ∈ scan).
    { apply elem_of_scan. exists r. split; [lia|]. split; [lia|].
      split; [lia|exact Hp]. }
    rewrite Forall_forall in Hspec.
    apply list_elem_of_In, Hspec in Hin. cbv beta in Hin.
    unfold clears in Hin. cbn [fst snd] in Hin.
    destruct (isOverlap ideas (testRect r0 dx dy)) eqn:Hc; [|discriminate].
    apply (Htrue (mkRect (x r0 + inject_Z dx * 20) (y r0 + inject_Z dy * 20)
                         (width r0) (height r0))).
    exact Hc.
Qed.

(** *** The live projection follows the selected version *)

Lemma in_sync_temp newId r : in_sync (tempIdea newId r).
Proof. left. by repeat split. Qed.

Lemma in_sync_markLoading i : in_sync i -> in_sync (markLoading i).
Proof. done. Qed.

Lemma in_sync_setError m i : in_sync i -> in_sync (setError m i).
Proof. done. Qed.

Lemma in_sync_with_rect r i : in_sync i -> in_sync (with_rect r i).
Proof. done. Qed.

Lemma in_sync_appendVersion data i : in_sync (appendVersion data i).
Proof.
  right. exists (newVersion data). cbn [appendVersion versions currentVersionIndex
    text bridgeText terms].
  split; [|by repeat split].
  apply js_index_Some. rewrite length_app. cbn [length]. split; [lia|].
  apply list_lookup_middle. lia.
Qed.

Lemma in_sync_attachArt ascii i : in_sync i -> in_sync (attachArt ascii i).
Proof.
  intros [(Hv & Hc & Ht)|(v & Hv & Ht & Hb & Hterms)].
  - left. cbn [attachArt versions currentVersionIndex text].
    unfold js_replace. rewrite Hv, Hc. by repeat split.
  - right. exists (with_art ascii v).
    cbn [attachArt versions currentVersionIndex text bridgeText terms].
    split; [|by repeat split].
    unfold js_replace. rewrite Hv.
    apply js_index_Some in Hv as [Hge Hv].
    apply js_index_Some. split; [done|].
    apply list_lookup_insert_eq. by eapply lookup_lt_Some.
Qed.

Lemma in_sync_switchVersion target index i :
  in_sync i -> in_sync (switchVersion target index i).
Proof.
  intros Hi. unfold switchVersion.
  destruct (id i =? target); [|done].
  destruct (js_index (versions i) index) as [v|] eqn:Hidx; [|done].
  right. by exists v.
Qed.

Lemma in_sync_nudge target tb i : in_sync i -> in_sync (nudge target tb i).
Proof.
  intros Hi. unfold nudge. destruct (id i =? target); [done|].
  destruct (isOverlapping i tb); [|done].
  by destruct (pushes_vertically i tb).
Qed.

Lemma Forall_map_id (P : Idea -> Prop) target f (l : list Idea) :
  (forall i, P i -> P (f i)) -> Forall P l -> Forall P (map_id target f l).
Proof.
  intros Hf Hl. unfold map_id. induction Hl as [|i l Hi _ IH]; [constructor|].
  rewrite fmap_cons. constructor; [|exact IH].
  destruct (id i =? target); auto.
Qed.

Lemma Forall_fmap_same (P : Idea -> Prop) (f : Idea -> Idea) (l : list Idea) :
  (forall i, P i -> P (f i)) -> Forall P l -> Forall P (f <$> l).
Proof.
  intros Hf Hl. induction Hl as [|i l Hi _ IH]; [constructor|].
  rewrite fmap_cons. constructor; auto.
Qed.

Lemma placeConcept_in_sync name raw activate e :
  Forall in_sync (ideas e) ->
  Forall in_sync (ideas (placeConcept name raw activate e).1).
Proof.
  intros He. unfold placeConcept. cbn [nextId fst].
  destruct activate; cbn [ideas setIdeas setActiveIdeaId];
    (apply Forall_app; split; [exact He|]);
    (constructor; [apply in_sync_temp|constructor]).
Qed.

Lemma step_in_sync e ev :
  Forall in_sync (ideas e) -> Forall in_sync (ideas (step e ev)).
Proof.
  intros He. destruct ev; unfold step; cbn [handle].
  - unfold handleRectSelect. cbn [nextId generateContentForIdea fst ideas
      setIdeas setActiveSuggestions].
    apply Forall_map_id; [apply in_sync_markLoading|].
    apply Forall_app. split; [exact He|].
    constructor; [apply in_sync_temp|constructor].
  - unfold startTopic. cbn [nextId generateContentForIdea fst ideas
      setIdeas setActiveSuggestions].
    apply Forall_map_id; [apply in_sync_markLoading|].
    constructor; [apply in_sync_temp|constructor].
  - by apply placeConcept_in_sync.
  - unfold handleSuggestionClick. destruct (List.find _ (ideas e)); [|exact He].
    by apply placeConcept_in_sync.
  - unfold handleSubmitNewConcept. destruct (truthy title); [|exact He].
    by apply placeConcept_in_sync.
  - unfold handleRegenerate. destruct (List.find _ (ideas e)); [|exact He].
    cbn [generateContentForIdea fst ideas setIdeas setActiveSuggestions].
    by apply Forall_map_id; [apply in_sync_markLoading|].
  - cbn [fst ideas setIdeas]. unfold handleSwitchVersion.
    by apply Forall_fmap_same; [apply in_sync_switchVersion|].
  - cbn [fst handleRemoveIdea ideas].
    apply Forall_forall. intros i [Hi _]%filter_In.
    rewrite Forall_forall in He. by apply He.
  - cbn [fst handleBringToFront ideas setIdeas setActiveIdeaId].
    unfold bringToFront. destruct (List.find _ (ideas e)); [|exact He].
    by apply Forall_fmap_same; [apply in_sync_nudge|].
  - cbn [fst mainArrived ideas setIdeas setTotalCharsGenerated].
    apply Forall_map_id; [|exact He]. intros i _. apply in_sync_appendVersion.
  - cbn [fst]. unfold suggestionsArrived. by destruct (0 <? _)%nat.
  - cbn [fst artArrived ideas setIdeas].
    by apply Forall_map_id; [apply in_sync_attachArt|].
  - cbn [fst failed ideas setIdeas].
    by apply Forall_map_id; [apply in_sync_setError|].
Qed.

(** X13. In every state the engine can reach, each node either has no
    version, index -1 and empty text, or its current index selects one of
    its versions and the node's live text, bridge and terms are that
    version's (absent terms reading as none). *)
Theorem live_projection_follows_version (e : State) :
  reachable e ->
  Forall (fun i =>
            ((versions i = [] /\ currentVersionIndex i = -1
              /\ text i = EmptyString)
             \/ exists v,
                  0 <= currentVersionIndex i < Z.of_nat (length (versions i))
                  /\ versions i !! Z.to_nat (currentVersionIndex i) = Some v
                  /\ text i = v_text v
                  /\ bridgeText i = v_bridgeText v
                  /\ terms i = default [] (v_terms v)))
         (ideas e).
Proof.
  intros Hreach.
  assert (Hsync : Forall in_sync (ideas e)).
  { induction Hreach as [|e ev _ IH]; [constructor|by apply step_in_sync]. }
  eapply List.Forall_impl; [|exact Hsync].
  intros i [H|(v & Hv & Hrest)]; [by left|].
  right. exists v. apply js_index_Some in Hv as [Hge Hv].
  split; [|by split].
  split; [done|]. apply lookup_lt_Some in Hv. lia.
Qed.

Lemma live_projection_follows_version_witness :
  reachable Scenario.after_session /\
  Forall (fun i => text i = EmptyString \/ versions i <> [])
         (ideas Scenario.after_session).
Proof.
  assert (Hreach : reachable Scenario.after_session).
  { unfold Scenario.after_session, run, Scenario.session. cbn [foldl].
    do 3 apply reachable_step. apply reachable_initial. }
  split; [exact Hreach|].
  eapply List.Forall_impl;
    [|exact (live_projection_follows_version Scenario.after_session Hreach)].
  intros i [(_ & _ & Ht)|(v & _ & Hv & _)]; [by left|].
  right. intros Hnil. rewrite Hnil in Hv. discriminate.
Defined.

(** X14. Node ids are never shared and never handed out again: in every
    reachable state the ids of the nodes are pairwise distinct and below
    the counter; an event never lowers the counter, and every node after
    it either carries the id of a node that was there before or has the
    id the counter stood at. *)
Theorem ids_are_never_reused (e : State) (ev : Event) :
  reachable e ->
  NoDup (id <$> ideas e) /\
  Forall (fun i => id i < ideaIdCounter e) (ideas e) /\
  ideaIdCounter e <= ideaIdCounter (step e ev) /\
  Forall (fun j => id j = ideaIdCounter e \/ exists i, i ∈ ideas e /\ id i = id j)
         (ideas (step e ev)).
Proof.
  intros Hreach. destruct (reachable_ids_fresh e Hreach) as [Hnd Hlt].
  split; [exact Hnd|]. split; [exact Hlt|]. split.
  - destruct ev; unfold step; cbn [handle fst]; try (cbn; lia).
    + unfold handleSuggestionClick. destruct (List.find _ (ideas e)); cbn; lia.
    + unfold handleSubmitNewConcept. destruct (truthy title); cbn; lia.
    + unfold handleRegenerate. destruct (List.find _ (ideas e)); cbn; lia.
    + unfold suggestionsArrived. destruct (0 <? _)%nat; cbn; lia.
  - apply Forall_forall. intros j Hj. apply list_elem_of_In in Hj.
    destruct (step_no_version_lost ev e j Hj) as [Hnew|(i & Hi & Hid & _)].
    2:{ right. by exists i. }
    assert (Hkeep : forall l : list Idea, j ∈ l -> Forall2 grows (ideas e) l ->
              exists i, i ∈ ideas e /\ id i = id j).
    { intros l Hl HF. apply list_elem_of_lookup in Hl as [k Hk].
      destruct (Forall2_lookup_r _ _ _ _ _ HF Hk) as (i & Hi & [Hid _]).
      exists i. split; [by eapply list_elem_of_lookup_2|done]. }
    assert (Hpush : forall c r (l : list Idea),
              j ∈ l ++ [tempIdea c r] -> c = ideaIdCounter e ->
              (forall i, i ∈ l -> i ∈ ideas e) ->
              id j = ideaIdCounter e \/ exists i, i ∈ ideas e /\ id i = id j).
    { intros c r l [Hin| ->%list_elem_of_singleton]%elem_of_app -> Hsub.
      - right. exists j. split; [by apply Hsub|done].
      - by left. }
    destruct (keeps_nodes ev) eqn:Hk.
    { right. eapply Hkeep; [exact Hj|]. by apply step_grows. }
    destruct ev; try discriminate Hk; unfold step in Hj; cbn [handle] in Hj.
    + unfold handleRectSelect in Hj.
      cbn [nextId generateContentForIdea fst ideas setIdeas
           setActiveSuggestions] in Hj.
      unfold map_id in Hj. apply list_elem_of_fmap in Hj as (i & -> & Hi).
      assert (Hidi : id (if id i =? ideaIdCounter e then markLoading i else i)
                     = id i) by (by destruct (id i =? ideaIdCounter e)).
      rewrite Hidi.
      eapply (fun H => or_ind (fun a => or_introl a) (fun b => or_intror b) H).
      apply elem_of_app in Hi as [Hi| ->%list_elem_of_singleton].
      * right. by exists i.
      * by left.
    + unfold startTopic in Hj.
      cbn [nextId generateContentForIdea fst ideas setIdeas
           setActiveSuggestions ideaIdCounter] in Hj.
      unfold map_id in Hj. apply list_elem_of_fmap in Hj as (i & -> & Hi).
      apply list_elem_of_singleton in Hi as ->. left.
      cbn [id tempIdea]. by rewrite Z.eqb_refl.
    + unfold handleExploreTerm, placeConcept in Hj.
      cbn [nextId fst ideas setIdeas setActiveIdeaId] in Hj.
      by eapply Hpush.
    + unfold handleSuggestionClick in Hj.
      destruct (List.find _ (ideas e)).
      * unfold placeConcept in Hj.
        cbn [nextId fst ideas setIdeas setActiveIdeaId setActiveSuggestions
             ideaIdCounter] in Hj.
        by eapply Hpush.
      * right. by exists j.
    + unfold handleSubmitNewConcept in Hj. destruct (truthy title).
      * unfold placeConcept in Hj.
        cbn [nextId fst ideas setIdeas] in Hj. by eapply Hpush.
      * right. by exists j.
    + cbn [fst handleRemoveIdea ideas] in Hj.
      apply list_elem_of_In, filter_In in Hj as [Hj _].
      right. exists j. split; [by apply list_elem_of_In|done].
Qed.

Lemma ids_are_never_reused_witness :
  reachable Scenario.after_session /\
  NoDup (id <$> ideas Scenario.after_session).
Proof.
  assert (Hreach : reachable Scenario.after_session).
  { unfold Scenario.after_session, run, Scenario.session. cbn [foldl].
    do 3 apply reachable_step. apply reachable_initial. }
  split; [exact Hreach|].
  exact (proj1 (ids_are_never_reused Scenario.after_session
                  Scenario.explore Hreach)).
Defined.

Lemma filter_idem {A} (p : A -> bool) (l : list A) :
  List.filter p (List.filter p l) = List.filter p l.
Proof.
  induction l as [|a l IH]; [done|]. simpl.
  destruct (p a) eqn:Hp; [|exact IH]. simpl. by rewrite Hp, IH.
Qed.

(** X15. Removing a node leaves no node and no suggestion edge of that
    id and does not leave it active; the other nodes stay, in order; the
    id counter is untouched; a store emptied by it shows the start screen
    again with the character total and the session clock cleared; a
    second removal of the same id changes nothing; and a click on a
    suggestion of the removed node is ignored. *)
Theorem removal_is_clean_and_idempotent (target : Z) (e : State) :
  let e' := handleRemoveIdea target e in
  ideas e' = List.filter (fun i => negb (id i =? target)) (ideas e) /\
  Forall (fun i => id i <> target) (ideas e') /\
  Forall (fun s => sourceId s <> target) (activeSuggestions e') /\
  activeIdeaId e' <> Some target /\
  ideaIdCounter e' = ideaIdCounter e /\
  (Forall (fun i => id i <> target) (ideas e) -> ideas e' = ideas e) /\
  (ideas e' = [] ->
     showInitialInput e' = true /\ totalCharsGenerated e' = 0
     /\ sessionStartTime e' = None) /\
  handleRemoveIdea target e' = e' /\
  (forall s raw, sourceId s = target ->
     handleSuggestionClick s raw e' = (e', None)).
Proof.
  intros e'. subst e'.
  assert (Hgone : Forall (fun i => id i <> target)
                    (List.filter (fun i => negb (id i =? target)) (ideas e))).
  { apply Forall_forall. intros i [_ Hi]%filter_In.
    apply negb_true_iff in Hi. lia. }
  split; [reflexivity|]. split; [exact Hgone|]. split; [|split; [|split]].
  - cbn [handleRemoveIdea activeSuggestions].
    apply Forall_forall. intros s [_ Hs]%filter_In.
    apply negb_true_iff in Hs. lia.
  - cbn [handleRemoveIdea activeIdeaId].
    destruct (activeIdeaId e) as [a|]; [|done].
    destruct (Z.eqb_spec a target); [done|]. congruence.
  - reflexivity.
  - split; [|split; [|split]].
    + intros Habs. cbn [handleRemoveIdea ideas]. clear Hgone.
      induction Habs as [|i l Hi _ IH]; [done|]. simpl.
      destruct (Z.eqb_spec (id i) target); [done|]. simpl. f_equal. exact IH.
    + cbn [handleRemoveIdea ideas showInitialInput totalCharsGenerated
           sessionStartTime].
      intros ->. by cbn.
    + unfold handleRemoveIdea.
      cbn [ideas activeIdeaId activeSuggestions context
           showInitialInput totalCharsGenerated sessionStartTime ideaIdCounter].
      rewrite !filter_idem.
      destruct (length _ =? 0)%nat; destruct (activeIdeaId e) as [a|];
        try reflexivity;
        destruct (Z.eqb_spec a target) as [Heq|Hne]; try reflexivity;
        by destruct (Z.eqb_spec a target).
    + intros s raw Hs. unfold handleSuggestionClick. rewrite Hs.
      destruct (List.find _ (ideas (handleRemoveIdea target e)))
        as [i|] eqn:Hfind; [|reflexivity].
      apply find_some in Hfind as [Hin Hid].
      rewrite Forall_forall in Hgone. apply Hgone in Hin.
      apply Z.eqb_eq in Hid. contradiction.
Qed.


(** X17. The rectangle proposed for a clicked term is between 200 and
    500 wide and between 150 and 400 high whatever the random draws, and
    it starts 60 units right of its source's right edge, which clears the
    source by the gap: with the source as the only node the proposal is
    taken as it is. *)
Theorem explored_term_clears_its_source (source : Idea) (r1 r2 r3 : Q) :
  let raw := exploreRawRect source r1 r2 r3 in
  (200 <= width raw /\ width raw <= 500)%Q /\
  (150 <= height raw /\ height raw <= 400)%Q /\
  (x raw == x source + width source + 60)%Q /\
  overlaps raw GRID_GAP source = false /\
  findValidSpot [source] raw = raw.
Proof.
  intros raw.
  assert (Hclamp : forall lo hi q : Q, (lo <= hi)%Q ->
            (lo <= Qmax lo (Qmin hi q) /\ Qmax lo (Qmin hi q) <= hi)%Q).
  { intros lo hi q Hle. split; [apply Q.le_max_l|].
    apply Q.max_lub; [exact Hle|apply Q.le_min_l]. }
  assert (Hov : overlaps raw GRID_GAP source = false).
  { unfold overlaps. apply negb_false_iff.
    assert (H : Qle_bool (x source + width source + GRID_GAP) (x raw) = true).
    { apply Qle_bool_iff. subst raw. unfold exploreRawRect, GRID_GAP.
      cbn [x]. lra. }
    rewrite H. by rewrite orb_true_r. }
  split; [subst raw; cbn [exploreRawRect width]; by apply Hclamp|].
  split; [subst raw; cbn [exploreRawRect height]; by apply Hclamp|].
  split; [reflexivity|]. split; [exact Hov|].
  unfold findValidSpot, isOverlap, isOverlap_gap. cbn [existsb].
  by rewrite Hov.
Qed.

(** X18. The art wrapper never fails and never returns the empty string,
    whatever the provider does. So a generation whose main content
    arrives ends with the node free of error, both loading flags down,
    the new text live and some art attached, even when the suggestion
    and art calls fail; and a generation whose main content fails ends
    with the error on the node, both flags down, its text, versions and
    index as they were, every other node untouched, the character total
    unchanged and the active suggestion set empty. *)
Theorem generation_ends_settled
    (trim : string -> string) (target : Z) (r : Rect) (currentContext : string)
    (main : outcome MainContent) (sugg : outcome (list string))
    (art : outcome (option string)) (e : State) :
  getQuadrantAsciiArt trim art <> EmptyString /\
  (forall data, main = Resolved data ->
     Forall (fun j => id j = target ->
               error j = None /\ isLoading j = false /\ isAsciiLoading j = false
               /\ text j = mc_text data
               /\ asciiArt j = Some (getQuadrantAsciiArt trim art))
            (ideas (generate trim target r currentContext main sugg art e))) /\
  (forall m, main = Rejected m ->
     Forall2 (fun i j =>
                if id i =? target then
                  error j = Some (errorMessage m "An error occurred.")
                  /\ isLoading j = false /\ isAsciiLoading j = false
                  /\ text j = text i /\ versions j = versions i
                  /\ currentVersionIndex j = currentVersionIndex i
                else j = i)
             (ideas e)
             (ideas (generate trim target r currentContext main sugg art e))
     /\ activeSuggestions
          (generate trim target r currentContext main sugg art e) = []
     /\ totalCharsGenerated
          (generate trim target r currentContext main sugg art e)
        = totalCharsGenerated e).
Proof.
  split; [|split].
  - unfold getQuadrantAsciiArt. destruct art as [[t|]|m]; try discriminate.
    destruct (truthy (trim t)) eqn:Ht; [|discriminate].
    by apply truthy_nonempty.
  - intros data ->. unfold generate, chain.
    assert (Hideas : forall e0,
              ideas (suggestionsArrived target r (getSuggestions sugg) e0)
              = ideas e0).
    { intros e0. unfold suggestionsArrived. by destruct (0 <? _)%nat. }
    cbn [artArrived ideas setIdeas]. rewrite Hideas.
    cbn [mainArrived generateContentForIdea fst ideas setIdeas
         setTotalCharsGenerated setActiveSuggestions].
    unfold map_id. rewrite <- !list_fmap_compose.
    apply Forall_forall. intros j Hj.
    apply list_elem_of_In, list_elem_of_fmap in Hj as (i & -> & _).
    cbn [compose].
    destruct (Z.eqb_spec (id i) target) as [Heq|Hne];
      repeat match goal with
             | |- context [id i =? target] =>
                 destruct (Z.eqb_spec (id i) target); try contradiction
             | |- _ => progress cbn [markLoading appendVersion attachArt id]
             end.
    intros _. by repeat split.
  - intros m ->. unfold generate, chain.
    cbn [failed generateContentForIdea fst ideas setIdeas setActiveSuggestions
         activeSuggestions totalCharsGenerated].
    split; [|by split].
    unfold map_id. rewrite <- list_fmap_compose.
    induction (ideas e) as [|i l IH]; [constructor|].
    rewrite fmap_cons. constructor; [clear IH|exact IH]. cbn [compose].
    destruct (Z.eqb_spec (id i) target) as [Heq|Hne];
      repeat match goal with
             | |- context [id i =? target] =>
                 destruct (Z.eqb_spec (id i) target); try contradiction
             | |- _ => progress cbn [markLoading setError id]
             end.
    + by repeat split.
    + reflexivity.
Qed.




End EngineProps.
